(** * convert_to_sql: NCBI taxonomy dump files to SQL

    A shallow embedding of [BotanyDict/database/utils/convert_to_sql.py]
    and the properties of its loaders, its subtree selector and its SQL
    renderer.

    Modelling conventions.
    - A Python [str] is a [string]; every [ascii] stands for the character
      with that code point (text whose code points are below 256).
    - A Python [int] is a [Z].
    - A Python [dict] keeps insertion order and has unique keys: it is an
      association list ([dict V]) updated in place by [dict_set]; the
      uniqueness of the keys is the predicate [dict_wf].
    - A Python [set] of ints is a [gset Z]; the [defaultdict(list)] that is
      only ever looked up is a [gmap Z (list Z)]; the [deque] is a list.
    - A text file opened for reading is the list of its lines as the
      iteration [for line in f] yields them (line terminators included);
      a file opened for writing is the list of the strings passed to
      [f.write], in order.
    - A raised exception is a value of [exn] carried by [result]. *)

From stdpp Require Import base decidable option list sorting gmap strings.
From Stdlib Require Import ZArith Lia Ascii DecimalString.

Local Open Scope Z_scope.

(** ** Exceptions *)

Inductive exn : Type :=
  | ValueError
  | IndexError
  | KeyError (key : Z).

Inductive result (A : Type) : Type :=
  | Ok (a : A)
  | Raise (e : exn).

Arguments Ok {A} a.
Arguments Raise {A} e.

#[global] Instance result_ret : MRet result := fun A a => Ok a.
#[global] Instance result_bind : MBind result := fun A B f m =>
  match m with
  | Ok a => f a
  | Raise e => Raise e
  end.
#[global] Instance result_fmap : FMap result := fun A B f m =>
  match m with
  | Ok a => Ok (f a)
  | Raise e => Raise e
  end.

(** ** Strings *)

Module Str.

Definition TAB : ascii := "009"%char.
Definition LF : ascii := "010"%char.
Definition QUOTE : ascii := "'"%char.

(** The field separator of the dump files, tab-pipe-tab. *)
Definition SEP : string := String TAB (String "|" (String TAB EmptyString)).

(** [str.isspace] on the code points below 256: the ASCII white space
    9-13 and 32, the separators 28-31, NEL (133) and NBSP (160). *)
Definition isspace (c : ascii) : bool :=
  let n := nat_of_ascii c in
  ((9 <=? n) && (n <=? 13) || (28 <=? n) && (n <=? 32)
   || (n =? 133) || (n =? 160))%nat.

Fixpoint lstrip (s : string) : string :=
  match s with
  | EmptyString => EmptyString
  | String c s' => if isspace c then lstrip s' else s
  end.

Fixpoint rstrip (s : string) : string :=
  match s with
  | EmptyString => EmptyString
  | String c s' =>
      match rstrip s' with
      | EmptyString => if isspace c then EmptyString else String c EmptyString
      | r => String c r
      end
  end.

(** [s.strip()] *)
Definition strip (s : string) : string := rstrip (lstrip s).

Definition cons_field (c : ascii) (fields : list string) : list string :=
  match fields with
  | [] => [String c EmptyString]
  | f :: fs => String c f :: fs
  end.

(** [s.split('\t|\t')]: the pieces between the leftmost, non-overlapping
    occurrences of the three-character separator; never empty. *)
Fixpoint split (s : string) : list string :=
  match s with
  | EmptyString => [EmptyString]
  | String c s' =>
      match s' with
      | String c2 (String c3 rest) =>
          if Ascii.eqb c TAB && Ascii.eqb c2 "|" && Ascii.eqb c3 TAB
          then EmptyString :: split rest
          else cons_field c (split s')
      | _ => cons_field c (split s')
      end
  end.

(** [s.replace(old, new)] for a one-character [old]. *)
Fixpoint replace (old : ascii) (new : string) (s : string) : string :=
  match s with
  | EmptyString => EmptyString
  | String c s' =>
      if Ascii.eqb c old then new +:+ replace old new s'
      else String c (replace old new s')
  end.

Definition digit (c : ascii) : option Z :=
  let n := nat_of_ascii c in
  if ((48 <=? n) && (n <=? 57))%nat then Some (Z.of_nat n - 48) else None.

(** The digits of a decimal literal, single underscores allowed between
    two digits. *)
Fixpoint digits (s : string) (acc : Z) (after_digit : bool) : option Z :=
  match s with
  | EmptyString => if after_digit then Some acc else None
  | String c s' =>
      if Ascii.eqb c "_" then
        if after_digit then digits s' acc false else None
      else
        match digit c with
        | Some d => digits s' (10 * acc + d) true
        | None => None
        end
  end.

(** The white space [int] skips around a number: the ASCII white space
    9-13 and 32, NEL (133) and NBSP (160).  Unlike [str.strip] it does not
    skip the separators 28-31: [int] raises on a string that has one. *)
Definition isspace_int (c : ascii) : bool :=
  let n := nat_of_ascii c in
  ((9 <=? n) && (n <=? 13) || (n =? 32) || (n =? 133) || (n =? 160))%nat.

Fixpoint lstrip_int (s : string) : string :=
  match s with
  | EmptyString => EmptyString
  | String c s' => if isspace_int c then lstrip_int s' else s
  end.

Fixpoint rstrip_int (s : string) : string :=
  match s with
  | EmptyString => EmptyString
  | String c s' =>
      match rstrip_int s' with
      | EmptyString => if isspace_int c then EmptyString else String c EmptyString
      | r => String c r
      end
  end.

(** [int(s)]: surrounding white space, an optional sign, decimal digits;
    [ValueError] otherwise. *)
Definition int (s : string) : result Z :=
  let parsed :=
    match rstrip_int (lstrip_int s) with
    | String "+" r => digits r 0 false
    | String "-" r => Z.opp <$> digits r 0 false
    | r => digits r 0 false
    end in
  match parsed with
  | Some n => Ok n
  | None => Raise ValueError
  end.

Fixpoint last_char (s : string) : option ascii :=
  match s with
  | EmptyString => None
  | String c EmptyString => Some c
  | String _ s' => last_char s'
  end.

(** [s] neither starts nor ends with white space. *)
Definition trimmed (s : string) : Prop :=
  match s with
  | EmptyString => True
  | String c _ => isspace c = false ∧ ∃ z, last_char s = Some z ∧ isspace z = false
  end.

(** [str(n)], as the f-string placeholder [{n}] formats an int. *)
Definition of_int (n : Z) : string := NilZero.string_of_int (Z.to_int n).

(** [s.startswith(prefix)] *)
Fixpoint startswith (s prefix : string) {struct prefix} : bool :=
  match prefix with
  | EmptyString => true
  | String a prefix' =>
      match s with
      | EmptyString => false
      | String b s' => Ascii.eqb a b && startswith s' prefix'
      end
  end.

End Str.

(** [parts[i]] on a list: [IndexError] when out of range (the indices of
    this program are non-negative literals). *)
Definition index {A} (parts : list A) (i : nat) : result A :=
  match parts !! i with
  | Some x => Ok x
  | None => Raise IndexError
  end.

(** ** Dictionaries *)

Abbreviation dict V := (list (Z * V)).

Definition dict_wf {V} (d : dict V) : Prop := NoDup (d.*1).

(** [d[k] = v] *)
Fixpoint dict_set {V} (d : dict V) (k : Z) (v : V) : dict V :=
  match d with
  | [] => [(k, v)]
  | (k', v') :: d' =>
      if decide (k = k') then (k, v) :: d' else (k', v') :: dict_set d' k v
  end.

(** [d.get(k)] *)
Fixpoint dict_get {V} (d : dict V) (k : Z) : option V :=
  match d with
  | [] => None
  | (k', v') :: d' => if decide (k = k') then Some v' else dict_get d' k
  end.

(** [d[k]] *)
Definition dict_item {V} (d : dict V) (k : Z) : result V :=
  match dict_get d k with
  | Some v => Ok v
  | None => Raise (KeyError k)
  end.

(** ** Loaders *)

(** A division: [(code, name, comment)]. *)
Definition division : Type := string * string * string.

(** A taxon: [(parent_id, rank, division_id)]. *)
Definition node : Type := Z * string * Z.

(** [line.strip().split('\t|\t')] *)
Definition fields (line : string) : list string :=
  Str.split (Str.strip line).

Fixpoint parse_division_lines (f : list string) (divisions : dict division)
    : result (dict division) :=
  match f with
  | [] => Ok divisions
  | line :: f' =>
      let parts := fields line in
      division_id ← index parts 0 ≫= Str.int;
      code ← Str.strip <$> index parts 1;
      name ← Str.strip <$> index parts 2;
      comment ← Str.strip <$> index parts 3;
      parse_division_lines f' (dict_set divisions division_id (code, name, comment))
  end.

Definition parse_division (f : list string) : result (dict division) :=
  parse_division_lines f [].

Fixpoint parse_nodes_lines (f : list string) (nodes : dict node)
    : result (dict node) :=
  match f with
  | [] => Ok nodes
  | line :: f' =>
      let parts := fields line in
      tax_id ← index parts 0 ≫= Str.int;
      parent_id ← index parts 1 ≫= Str.int;
      rank ← Str.strip <$> index parts 2;
      division_id ← index parts 4 ≫= Str.int;
      parse_nodes_lines f' (dict_set nodes tax_id (parent_id, rank, division_id))
  end.

Definition parse_nodes_with_division (f : list string) : result (dict node) :=
  parse_nodes_lines f [].

Fixpoint parse_names_lines (f : list string) (taxid_filter : gset Z)
    (names : dict string) : result (dict string) :=
  match f with
  | [] => Ok names
  | line :: f' =>
      let parts := fields line in
      tax_id ← index parts 0 ≫= Str.int;
      name_txt ← Str.strip <$> index parts 1;
      name_class ← Str.strip <$> index parts 3;
      parse_names_lines f' taxid_filter
        (if decide (tax_id ∈ taxid_filter ∧ name_class = "scientific name")
         then dict_set names tax_id name_txt
         else names)
  end.

Definition parse_names (f : list string) (taxid_filter : gset Z)
    : result (dict string) :=
  parse_names_lines f taxid_filter [].

(** *** What a line of a dump file stands for *)

(** The line splits into fewer than [n] fields. *)
Definition too_few_fields (n : nat) (line : string) : Prop :=
  (length (fields line) < n)%nat.

(** The first field of the line is not an integer: [int] raises on it. *)
Definition first_field_not_int (line : string) : Prop :=
  ∃ f0 rest, fields line = f0 :: rest ∧ Str.int f0 = Raise ValueError.

(** The id and the trimmed code, name and comment of a line of
    [division.dmp] with at least four fields and an integer first field. *)
Definition division_record (line : string) : option (Z * division) :=
  match fields line with
  | f0 :: f1 :: f2 :: f3 :: _ =>
      match Str.int f0 with
      | Ok division_id =>
          Some (division_id, (Str.strip f1, Str.strip f2, Str.strip f3))
      | Raise _ => None
      end
  | _ => None
  end.

(** The id, the name text and the name class, as they stand in the line,
    of a line of [names.dmp] with at least four fields and an integer
    first field. *)
Definition names_record (line : string) : option (Z * string * string) :=
  match fields line with
  | f0 :: f1 :: _ :: f3 :: _ =>
      match Str.int f0 with
      | Ok tax_id => Some (tax_id, f1, f3)
      | Raise _ => None
      end
  | _ => None
  end.

(** The entry of [names] a line of [names.dmp] gives rise to, if any: the
    filter predicate of the name loader. *)
Definition scientific_name (taxid_filter : gset Z) (line : string)
    : option (Z * string) :=
  match names_record line with
  | Some (tax_id, name_txt, name_class) =>
      if decide (tax_id ∈ taxid_filter ∧ Str.strip name_class = "scientific name")
      then Some (tax_id, Str.strip name_txt)
      else None
  | None => None
  end.

(** Among the lines [f], the last one that sets the key [k] sets it to [v]. *)
Definition last_record {V} (record : string → option (Z * V))
    (f : list string) (k : Z) (v : V) : Prop :=
  ∃ before line after,
    f = before ++ line :: after ∧
    record line = Some (k, v) ∧
    Forall (fun l => ∀ v', record l ≠ Some (k, v')) after.

(** The dictionary after the assignments of the lines [f], in order. *)
Definition assign_all {V} (record : string → option (Z * V))
    (f : list string) (d : dict V) : dict V :=
  fold_left
    (fun d line =>
       match record line with
       | Some (k, v) => dict_set d k v
       | None => d
       end)
    f d.

(** ** Subtree selector *)

(** The default root, the taxon of the plants. *)
Definition PLANTAE : Z := 3193.

(** [children_map[parent_id].append(tax_id)] on the [defaultdict(list)]. *)
Definition children_append (children_map : gmap Z (list Z))
    (parent_id tax_id : Z) : gmap Z (list Z) :=
  <[parent_id := default [] (children_map !! parent_id) ++ [tax_id]]> children_map.

(** [for tax_id, (parent_id, _, _) in nodes.items(): ...] *)
Definition build_children_map (nodes : dict node) : gmap Z (list Z) :=
  fold_left
    (fun children_map '(tax_id, (parent_id, _, _)) =>
       children_append children_map parent_id tax_id)
    nodes ∅.

(** [children_map.get(current, [])] *)
Definition children_of (children_map : gmap Z (list Z)) (current : Z) : list Z :=
  default [] (children_map !! current).

(** The inner [for child in ...: if child not in taxids: queue.append(child)]. *)
Definition enqueue_children (taxids : gset Z) (queue : list Z)
    (children : list Z) : list Z :=
  fold_left
    (fun queue child =>
       if decide (child ∈ taxids) then queue else queue ++ [child])
    children queue.

(** The [while queue:] loop; [fuel] bounds the number of times its
    condition is tested, [None] is "still running". *)
Fixpoint bfs_loop (fuel : nat) (children_map : gmap Z (list Z))
    (taxids : gset Z) (queue : list Z) : option (gset Z) :=
  match fuel with
  | O => None
  | S fuel' =>
      match queue with
      | [] => Some taxids
      | current :: queue' =>
          let taxids' := taxids ∪ {[current]} in
          bfs_loop fuel' children_map taxids'
            (enqueue_children taxids' queue' (children_of children_map current))
      end
  end.

Definition get_descendants (fuel : nat) (nodes : dict node) (root : Z)
    : option (gset Z) :=
  bfs_loop fuel (build_children_map nodes) ∅ [root].

(** The call [get_descendants(nodes, root)] returns [taxids]. *)
Definition get_descendants_returns (nodes : dict node) (root : Z)
    (taxids : gset Z) : Prop :=
  ∃ fuel, get_descendants fuel nodes root = Some taxids.

(** *** The same loop, recording what it does to the queue *)

Inductive event : Type :=
  | Dequeue (id : Z)   (* [current = queue.popleft()], the visit of [id] *)
  | Enqueue (id : Z).  (* [deque([id])] or [queue.append(id)] *)

Definition enqueue_children_log (taxids : gset Z) (st : list Z * list event)
    (children : list Z) : list Z * list event :=
  fold_left
    (fun '(queue, log) child =>
       if decide (child ∈ taxids) then (queue, log)
       else (queue ++ [child], log ++ [Enqueue child]))
    children st.

Fixpoint bfs_loop_log (fuel : nat) (children_map : gmap Z (list Z))
    (taxids : gset Z) (queue : list Z) (log : list event)
    : option (gset Z * list event) :=
  match fuel with
  | O => None
  | S fuel' =>
      match queue with
      | [] => Some (taxids, log)
      | current :: queue' =>
          let taxids' := taxids ∪ {[current]} in
          let '(queue'', log') :=
            enqueue_children_log taxids' (queue', log ++ [Dequeue current])
              (children_of children_map current) in
          bfs_loop_log fuel' children_map taxids' queue'' log'
      end
  end.

Definition get_descendants_log (fuel : nat) (nodes : dict node) (root : Z)
    : option (gset Z * list event) :=
  bfs_loop_log fuel (build_children_map nodes) ∅ [root] [Enqueue root].

(** Every id is dequeued (visited) at most once. *)
Definition visited_once (log : list event) : Prop :=
  ∀ i j id, log !! i = Some (Dequeue id) → log !! j = Some (Dequeue id) → i = j.

(** No id is enqueued after it was visited: every enqueue of an id that is
    ever visited comes before that visit. *)
Definition no_enqueue_after_visit (log : list event) : Prop :=
  ∀ i j id,
    log !! i = Some (Dequeue id) → log !! j = Some (Enqueue id) → (j < i)%nat.

(** *** Depth-first traversal of the same index

    The traversal the specification compares the selector with; it is not
    in the source.  It is the selector with the queue replaced by a stack:
    [stack.pop()] takes the element that [stack.append] added last (the
    head of the list). *)

Definition push_children (taxids : gset Z) (stack : list Z)
    (children : list Z) : list Z :=
  fold_left
    (fun stack child =>
       if decide (child ∈ taxids) then stack else child :: stack)
    children stack.

Fixpoint dfs_loop (fuel : nat) (children_map : gmap Z (list Z))
    (taxids : gset Z) (stack : list Z) : option (gset Z) :=
  match fuel with
  | O => None
  | S fuel' =>
      match stack with
      | [] => Some taxids
      | current :: stack' =>
          let taxids' := taxids ∪ {[current]} in
          dfs_loop fuel' children_map taxids'
            (push_children taxids' stack' (children_of children_map current))
      end
  end.

Definition get_descendants_dfs (fuel : nat) (nodes : dict node) (root : Z)
    : option (gset Z) :=
  dfs_loop fuel (build_children_map nodes) ∅ [root].

Definition get_descendants_dfs_returns (nodes : dict node) (root : Z)
    (taxids : gset Z) : Prop :=
  ∃ fuel, get_descendants_dfs fuel nodes root = Some taxids.

(** *** What both traversals compute *)

(** [tax_id] is a key of [nodes] whose parent is [parent_id]. *)
Definition is_child (nodes : dict node) (parent_id tax_id : Z) : Prop :=
  ∃ rank division_id, (tax_id, (parent_id, rank, division_id)) ∈ nodes.

(** [tax_id] is [root] or a descendant of it. *)
Definition in_subtree (nodes : dict node) (root tax_id : Z) : Prop :=
  rtc (is_child nodes) root tax_id.

(** A work-list traversal; [merge rest new] is the work list after the
    unvisited children [new] of the element just taken were added to what
    was left, [rest]. *)
Fixpoint worklist_loop (merge : list Z → list Z → list Z) (fuel : nat)
    (children_map : gmap Z (list Z)) (taxids : gset Z) (work : list Z)
    : option (gset Z) :=
  match fuel with
  | O => None
  | S fuel' =>
      match work with
      | [] => Some taxids
      | current :: rest =>
          let taxids' := taxids ∪ {[current]} in
          worklist_loop merge fuel' children_map taxids'
            (merge rest
               (filter (fun child => child ∉ taxids')
                  (children_of children_map current)))
      end
  end.

Definition bfs_merge (rest new : list Z) : list Z := rest ++ new.

Definition dfs_merge (rest new : list Z) : list Z := reverse new ++ rest.

(** The number of entries of [nodes] whose parent was not visited yet. *)
Definition pending (nodes : dict node) (taxids : gset Z) : nat :=
  length (filter (fun e : Z * node => e.2.1.1 ∉ taxids) nodes).

(** The invariant of a traversal from [root]: [V] is the set of visited
    ids, [Q] the work list. *)
Record traversal_inv (nodes : dict node) (root : Z) (V : gset Z)
    (Q : list Z) : Prop := {
  inv_nodup : NoDup Q;
  inv_fresh : ∀ x, x ∈ Q → x ∉ V;
  inv_origin : ∀ x, x ∈ Q → x = root ∨ ∃ p, p ∈ V ∧ is_child nodes p x;
  inv_root : root ∈ V ∨ Q = [root];
  inv_sound : ∀ x, x ∈ V ∨ x ∈ Q → in_subtree nodes root x;
  inv_closed : ∀ p x, p ∈ V → is_child nodes p x → x ∈ V ∨ x ∈ Q
}.

(** The invariant of the record of a run: [V] is the set of visited ids. *)
Definition log_inv (V : gset Z) (log : list event) : Prop :=
  visited_once log ∧ no_enqueue_after_visit log ∧ ∀ x, Dequeue x ∈ log ↔ x ∈ V.

(** ** SQL renderer *)

(** A computation that writes to the output file and may raise: it takes
    the strings written so far and gives them back extended, also when
    it raises. *)
Definition fileio (A : Type) : Type := list string → list string * result A.

#[global] Instance fileio_ret : MRet fileio := fun A a out => (out, Ok a).
#[global] Instance fileio_bind : MBind fileio := fun A B k m out =>
  match m out with
  | (out', Ok a) => k a out'
  | (out', Raise e) => (out', Raise e)
  end.

(** [f.write(s)] *)
Definition write (s : string) : fileio unit := fun out => (out ++ [s], Ok ()).

(** An expression that may raise, evaluated between two writes. *)
Definition eval {A} (r : result A) : fileio A := fun out => (out, r).

(** [for x in xs: body] *)
Fixpoint for_each {A} (xs : list A) (body : A → fileio unit) : fileio unit :=
  match xs with
  | [] => mret ()
  | x :: xs' => body x ;; for_each xs' body
  end.

(** [with open(output_file, 'w') as f: body]: the file starts empty. *)
Definition with_output {A} (body : fileio A) : list string * result A := body [].

Definition nl : string := String Str.LF EmptyString.

(** [sorted(taxids)] *)
Definition sorted (taxids : gset Z) : list Z := merge_sort Z.le (elements taxids).

Definition division_insert (div_id : Z) (d : division) : string :=
  let '(code, name, comment) := d in
  "INSERT INTO division VALUES (" +:+ Str.of_int div_id +:+ ", '" +:+ code
    +:+ "', '" +:+ name +:+ "', '" +:+ comment +:+ "');" +:+ nl.

Definition taxon_insert (tax_id parent_id : Z) (rank_sql : string)
    (division_id : Z) : string :=
  "INSERT INTO taxon VALUES (" +:+ Str.of_int tax_id +:+ ", "
    +:+ Str.of_int parent_id +:+ ", '" +:+ rank_sql +:+ "', "
    +:+ Str.of_int division_id +:+ ");" +:+ nl.

Definition taxon_name_insert (tax_id : Z) (name_sql : string) : string :=
  "INSERT INTO taxon_name VALUES (" +:+ Str.of_int tax_id +:+ ", '"
    +:+ name_sql +:+ "');" +:+ nl.

Definition export_sql_with_division (nodes : dict node) (names : dict string)
    (taxids : gset Z) (divisions : dict division) : list string * result unit :=
  with_output (
    write ("CREATE TABLE division (" +:+ nl) ;;
    write ("  division_id INTEGER PRIMARY KEY," +:+ nl) ;;
    write ("  division_code TEXT," +:+ nl) ;;
    write ("  division_name TEXT," +:+ nl) ;;
    write ("  comments TEXT" +:+ nl) ;;
    write (");" +:+ nl +:+ nl) ;;
    for_each divisions (fun '(div_id, d) =>
      write (division_insert div_id d)) ;;

    write nl ;;

    write ("CREATE TABLE taxon (" +:+ nl) ;;
    write ("  tax_id INTEGER PRIMARY KEY," +:+ nl) ;;
    write ("  parent_tax_id INTEGER," +:+ nl) ;;
    write ("  rank TEXT," +:+ nl) ;;
    write ("  division_id INTEGER" +:+ nl) ;;
    write (");" +:+ nl +:+ nl) ;;

    write ("CREATE TABLE taxon_name (" +:+ nl) ;;
    write ("  tax_id INTEGER," +:+ nl) ;;
    write ("  name TEXT," +:+ nl) ;;
    write ("  UNIQUE(tax_id, name)" +:+ nl) ;;
    write (");" +:+ nl +:+ nl) ;;

    for_each (sorted taxids) (fun tax_id =>
      '(parent_id, rank, division_id) ← eval (dict_item nodes tax_id);
      let rank_sql := Str.replace Str.QUOTE "''" rank in
      write (taxon_insert tax_id parent_id rank_sql division_id)) ;;

    write nl ;;

    for_each names (fun '(tax_id, name) =>
      let name_sql := Str.replace Str.QUOTE "''" name in
      write (taxon_name_insert tax_id name_sql))
  ).

(** The strings written for the three schemas. *)
Definition division_schema : list string :=
  [ "CREATE TABLE division (" +:+ nl;
    "  division_id INTEGER PRIMARY KEY," +:+ nl;
    "  division_code TEXT," +:+ nl;
    "  division_name TEXT," +:+ nl;
    "  comments TEXT" +:+ nl;
    ");" +:+ nl +:+ nl ].

Definition taxon_schema : list string :=
  [ "CREATE TABLE taxon (" +:+ nl;
    "  tax_id INTEGER PRIMARY KEY," +:+ nl;
    "  parent_tax_id INTEGER," +:+ nl;
    "  rank TEXT," +:+ nl;
    "  division_id INTEGER" +:+ nl;
    ");" +:+ nl +:+ nl ].

Definition taxon_name_schema : list string :=
  [ "CREATE TABLE taxon_name (" +:+ nl;
    "  tax_id INTEGER," +:+ nl;
    "  name TEXT," +:+ nl;
    "  UNIQUE(tax_id, name)" +:+ nl;
    ");" +:+ nl +:+ nl ].

(** The statement the renderer writes for an entry of [divisions]. *)
Definition division_statement (entry : Z * division) : string :=
  division_insert entry.1 entry.2.

(** The statements of one table among the strings written. *)
Definition is_division_insert (s : string) : bool :=
  Str.startswith s "INSERT INTO division VALUES (".

Definition is_taxon_insert (s : string) : bool :=
  Str.startswith s "INSERT INTO taxon VALUES (".

Definition is_taxon_name_insert (s : string) : bool :=
  Str.startswith s "INSERT INTO taxon_name VALUES (".

(** The statement the renderer writes for the taxon [tax_id]. *)
Definition taxon_statement (nodes : dict node) (tax_id : Z) : string :=
  match dict_get nodes tax_id with
  | Some (parent_id, rank, division_id) =>
      taxon_insert tax_id parent_id (Str.replace Str.QUOTE "''" rank) division_id
  | None => EmptyString
  end.

(** The statement the renderer writes for an entry of [names]. *)
Definition taxon_name_statement (entry : Z * string) : string :=
  taxon_name_insert entry.1 (Str.replace Str.QUOTE "''" entry.2).

(** ** The whole program

    The [__main__] block with the default root; an exception of a loader
    ends the run before the output file is opened.  The final [print] is
    left out. *)

Definition main (fuel : nat) (division_file nodes_file names_file : list string)
    : option (list string * result unit) :=
  match parse_division division_file with
  | Raise e => Some ([], Raise e)
  | Ok divisions =>
      match parse_nodes_with_division nodes_file with
      | Raise e => Some ([], Raise e)
      | Ok nodes =>
          taxids ← get_descendants fuel nodes PLANTAE;
          match parse_names names_file taxids with
          | Raise e => Some ([], Raise e)
          | Ok names =>
              Some (export_sql_with_division nodes names taxids divisions)
          end
      end
  end.

(** ** Further notions for the loaders and the renderer *)

(** The field of index [i] of the line exists and is not an integer. *)
Definition field_not_int (i : nat) (line : string) : Prop :=
  ∃ fi, fields line !! i = Some fi ∧ Str.int fi = Raise ValueError.

(** A line of [nodes.dmp] the node loader cannot read: fewer than five
    fields, or a first, second or fifth field that is not an integer. *)
Definition malformed_node_line (line : string) : Prop :=
  too_few_fields 5 line ∨ field_not_int 0 line ∨ field_not_int 1 line
  ∨ field_not_int 4 line.

(** The id, parent id, trimmed rank and division id of a line of
    [nodes.dmp] that the node loader can read. *)
Definition node_record (line : string) : option (Z * node) :=
  match fields line with
  | f0 :: f1 :: f2 :: _ :: f4 :: _ =>
      match Str.int f0, Str.int f1, Str.int f4 with
      | Ok tax_id, Ok parent_id, Ok division_id =>
          Some (tax_id, (parent_id, Str.strip f2, division_id))
      | _, _, _ => None
      end
  | _ => None
  end.

(** The keys [ks] in the order of their first occurrence. *)
Definition first_occurrences (ks : list Z) : list Z :=
  fold_left (fun seen k => if decide (k ∈ seen) then seen else seen ++ [k]) ks [].

(** Every single quote of [s] is one of a pair of consecutive quotes. *)
Fixpoint quotes_paired (s : string) : bool :=
  match s with
  | EmptyString => true
  | String c s' =>
      if Ascii.eqb c Str.QUOTE then
        match s' with
        | String c' s'' => Ascii.eqb c' Str.QUOTE && quotes_paired s''
        | EmptyString => false
        end
      else quotes_paired s'
  end.

(** * Dictionaries *)

Lemma dict_get_Some_elem_of {V} (d : dict V) k v :
  dict_get d k = Some v → (k, v) ∈ d.
Proof.
  induction d as [|[k' v'] d IH]; simpl; [done|].
  case_decide; [intros [= ->]; subst; left | right; auto].
Qed.

Lemma dict_get_None {V} (d : dict V) k : dict_get d k = None ↔ k ∉ d.*1.
Proof.
  induction d as [|[k' v'] d IH]; simpl.
  - split; [intros _; apply not_elem_of_nil | done].
  - rewrite not_elem_of_cons. case_decide as Hk.
    + split; [done | intros [? _]; done].
    + rewrite IH. split; [by split | by intros [_ ?]].
Qed.

Lemma dict_get_is_Some {V} (d : dict V) k : is_Some (dict_get d k) ↔ k ∈ d.*1.
Proof.
  rewrite <-not_eq_None_Some, dict_get_None.
  split; [apply dec_stable | auto].
Qed.

Lemma dict_keys_unique {V} (d : dict V) k v1 v2 :
  dict_wf d → (k, v1) ∈ d → (k, v2) ∈ d → v1 = v2.
Proof.
  unfold dict_wf. induction d as [|[k' v'] d IH]; csimpl.
  - intros _ H; inv H.
  - rewrite NoDup_cons, !elem_of_cons. intros [Hk Hd] [H1|H1] [H2|H2].
    + congruence.
    + injection H1 as <- <-. destruct Hk.
      change k with (k, v2).1. by apply list_elem_of_fmap_2.
    + injection H2 as <- <-. destruct Hk.
      change k with (k, v1).1. by apply list_elem_of_fmap_2.
    + auto.
Qed.

Lemma dict_set_keys {V} (d : dict V) k v x :
  x ∈ (dict_set d k v).*1 ↔ x = k ∨ x ∈ d.*1.
Proof.
  induction d as [|[k' v'] d IH]; csimpl.
  - rewrite list_elem_of_singleton. set_solver.
  - case_decide; subst; csimpl; rewrite !elem_of_cons; [|rewrite IH]; naive_solver.
Qed.

Lemma dict_set_wf {V} (d : dict V) k v : dict_wf d → dict_wf (dict_set d k v).
Proof.
  unfold dict_wf. induction d as [|[k' v'] d IH]; csimpl.
  - intros _. apply NoDup_singleton.
  - rewrite NoDup_cons. intros [Hk Hd]. case_decide; subst; csimpl.
    + by apply NoDup_cons.
    + apply NoDup_cons. split; [|auto]. rewrite dict_set_keys. naive_solver.
Qed.

Lemma dict_get_set {V} (d : dict V) k v k' :
  dict_get (dict_set d k v) k' = if decide (k' = k) then Some v else dict_get d k'.
Proof.
  induction d as [|[k0 v0] d IH]; simpl.
  - done.
  - repeat (case_decide; simpl; subst); try done; congruence.
Qed.

(** * The parent-to-children index *)

Lemma children_of_append cm p t q :
  children_of (children_append cm p t) q =
  children_of cm q ++ (if decide (p = q) then [t] else []).
Proof.
  unfold children_of, children_append. case_decide; subst.
  - by rewrite lookup_insert_eq.
  - rewrite lookup_insert_ne by done. by rewrite app_nil_r.
Qed.

Lemma children_of_fold (nodes : dict node) cm q :
  children_of
    (fold_left (fun cm '(tax_id, (parent_id, _, _)) =>
                  children_append cm parent_id tax_id) nodes cm) q =
  children_of cm q ++ (filter (fun e : Z * node => e.2.1.1 = q) nodes).*1.
Proof.
  revert cm. induction nodes as [|[t [[p r] d]] nodes IH]; intros cm; simpl.
  - by rewrite app_nil_r.
  - rewrite IH, children_of_append, filter_cons. simpl.
    case_decide; simpl; [by rewrite <-app_assoc | by rewrite app_nil_r].
Qed.

Lemma children_of_build (nodes : dict node) q :
  children_of (build_children_map nodes) q =
  (filter (fun e : Z * node => e.2.1.1 = q) nodes).*1.
Proof. unfold build_children_map. by rewrite children_of_fold. Qed.

Lemma elem_of_children (nodes : dict node) p x :
  x ∈ children_of (build_children_map nodes) p ↔ is_child nodes p x.
Proof.
  rewrite children_of_build, list_elem_of_fmap. unfold is_child. split.
  - intros [[t [[p' r] d]] [-> [Hp Hin]%list_elem_of_filter]].
    simpl in *; subst. eauto.
  - intros (r & d & Hin). exists (x, (p, r, d)). split; [done|].
    apply list_elem_of_filter. done.
Qed.

Lemma children_NoDup (nodes : dict node) p :
  dict_wf nodes → NoDup (children_of (build_children_map nodes) p).
Proof.
  intros Hwf. rewrite children_of_build.
  eapply sublist_NoDup; [exact Hwf|]. apply fmap_sublist, sublist_filter.
Qed.

Lemma is_child_parent_unique (nodes : dict node) p p' x :
  dict_wf nodes → is_child nodes p x → is_child nodes p' x → p = p'.
Proof.
  intros Hwf (r & d & H) (r' & d' & H').
  pose proof (dict_keys_unique _ _ _ _ Hwf H H'). congruence.
Qed.

Lemma is_child_key (nodes : dict node) p x : is_child nodes p x → x ∈ nodes.*1.
Proof.
  intros (r & d & H). change x with (x, (p, r, d)).1. by apply list_elem_of_fmap_2.
Qed.

Lemma pending_le (nodes : dict node) (V : gset Z) :
  (pending nodes V ≤ length nodes)%nat.
Proof. apply length_filter. Qed.

Lemma pending_visit (nodes : dict node) (V : gset Z) c :
  c ∉ V →
  (pending nodes (V ∪ {[c]}) +
     length (children_of (build_children_map nodes) c))%nat = pending nodes V.
Proof.
  intros Hc. rewrite children_of_build, length_fmap. unfold pending.
  induction nodes as [|[t [[p r] d]] nodes IH]; [done|].
  rewrite !filter_cons. simpl.
  destruct (decide (p = c)) as [->|Hne].
  - rewrite decide_False by set_solver. rewrite decide_True by done. simpl. lia.
  - destruct (decide (p ∈ V)).
    + rewrite decide_False by set_solver. rewrite decide_False by set_solver. done.
    + rewrite decide_True by set_solver. rewrite decide_True by set_solver. simpl. lia.
Qed.

(** * The traversal invariant *)

Section traversal.
Context (nodes : dict node) (root : Z).
Hypothesis nodes_wf : dict_wf nodes.

Let cm := build_children_map nodes.

Lemma traversal_inv_init : traversal_inv nodes root ∅ [root].
Proof.
  split.
  - apply NoDup_singleton.
  - set_solver.
  - intros x ->%list_elem_of_singleton. by left.
  - by right.
  - intros x [Hx| ->%list_elem_of_singleton]; [set_solver|]. apply rtc_refl.
  - set_solver.
Qed.

Lemma traversal_inv_step V c rest Q' :
  traversal_inv nodes root V (c :: rest) →
  Q' ≡ₚ rest ++ filter (fun child => child ∉ V ∪ {[c]}) (children_of cm c) →
  traversal_inv nodes root (V ∪ {[c]}) Q'.
Proof.
  intros [Hnd Hfresh Horigin Hroot Hsound Hclosed] HQ'.
  apply NoDup_cons in Hnd as [Hc Hnd].
  assert (c ∉ V) as HcV by (apply Hfresh; left).
  assert (∀ x, x ∈ Q' ↔ x ∈ rest ∨ ((x ∉ V ∪ {[c]}) ∧ is_child nodes c x)) as HelQ.
  { intros x. rewrite HQ', elem_of_app, list_elem_of_filter.
    unfold cm. by rewrite elem_of_children. }
  split.
  - rewrite HQ'. apply NoDup_app. split_and!; [done| |].
    + intros x Hx [Hnew Hch%elem_of_children]%list_elem_of_filter.
      destruct (Horigin x) as [->|(p & Hp & Hpx)]; [by right| |].
      * destruct Hroot as [?|[= -> ->]]; [set_solver | inv Hx].
      * rewrite (is_child_parent_unique _ _ _ _ nodes_wf Hch Hpx) in HcV. done.
    + apply NoDup_filter, children_NoDup, nodes_wf.
  - intros x [Hx|[Hx _]]%HelQ; [|done].
    pose proof (Hfresh x ltac:(by right)). set_solver.
  - intros x [Hx|[_ Hx]]%HelQ.
    + destruct (Horigin x ltac:(by right)) as [?|(p & ? & ?)]; [by left|].
      right. exists p. set_solver.
    + right. exists c. set_solver.
  - left. destruct Hroot as [?|[= -> ->]]; set_solver.
  - intros x [[Hx| ->%elem_of_singleton]%elem_of_union|[Hx|[_ Hx]]%HelQ].
    + apply Hsound. by left.
    + apply Hsound. right. by left.
    + apply Hsound. right. by right.
    + eapply rtc_r; [|exact Hx]. apply Hsound. right. by left.
  - intros p x [Hp| ->%elem_of_singleton]%elem_of_union Hpx.
    + destruct (Hclosed p x Hp Hpx) as [?|[->|?]%elem_of_cons].
      * left. set_solver.
      * left. set_solver.
      * right. apply HelQ. by left.
    + destruct (decide (x ∈ V ∪ {[c]})); [by left|].
      right. apply HelQ. by right.
Qed.

Lemma traversal_inv_final V x :
  traversal_inv nodes root V [] → x ∈ V ↔ in_subtree nodes root x.
Proof.
  intros [_ _ _ Hroot Hsound Hclosed]. split; [intros; apply Hsound; by left|].
  destruct Hroot as [Hroot|[=]].
  revert x. apply rtc_ind_r; [done|]. intros y z _ Hyz IH.
  destruct (Hclosed y z IH Hyz) as [?|Hz]; [done | inv Hz].
Qed.

Section worklist.
Context (merge : list Z → list Z → list Z).
Hypothesis merge_perm : ∀ rest new, merge rest new ≡ₚ rest ++ new.

Lemma worklist_loop_returns fuel V Q :
  traversal_inv nodes root V Q →
  (length Q + pending nodes V < fuel)%nat →
  ∃ taxids, worklist_loop merge fuel cm V Q = Some taxids ∧
            ∀ x, x ∈ taxids ↔ in_subtree nodes root x.
Proof.
  revert V Q. induction fuel as [|fuel IH]; intros V Q Hinv Hfuel; [lia|].
  destruct Q as [|c rest]; simpl.
  { exists V. split; [done|]. intros x. by apply traversal_inv_final. }
  assert (c ∉ V) as HcV by (apply (inv_fresh _ _ _ _ Hinv); left).
  apply IH.
  - eapply traversal_inv_step; [exact Hinv | apply merge_perm].
  - rewrite merge_perm, length_app.
    pose proof (pending_visit nodes V c HcV) as Hp. fold cm in Hp.
    pose proof (length_filter (fun child => child ∉ V ∪ {[c]})
                  (children_of cm c)).
    simpl in Hfuel. lia.
Qed.

Lemma worklist_loop_fuel_mono fuel fuel' V Q taxids :
  worklist_loop merge fuel cm V Q = Some taxids → (fuel ≤ fuel')%nat →
  worklist_loop merge fuel' cm V Q = Some taxids.
Proof.
  revert fuel' V Q. induction fuel as [|fuel IH]; intros fuel' V Q; [done|].
  destruct fuel' as [|fuel']; [lia|]. simpl.
  destruct Q; [done|]. intros H ?. apply IH; [done | lia].
Qed.
End worklist.
End traversal.

(** * The two loops as work-list traversals *)

Lemma enqueue_children_filter taxids queue children :
  enqueue_children taxids queue children =
  queue ++ filter (fun child => child ∉ taxids) children.
Proof.
  unfold enqueue_children. revert queue.
  induction children as [|child children IH]; intros queue; simpl.
  - by rewrite app_nil_r.
  - rewrite IH, filter_cons. destruct (decide (child ∈ taxids)).
    + by rewrite decide_False by auto.
    + rewrite decide_True by done. by rewrite <-app_assoc.
Qed.

Lemma push_children_filter taxids stack children :
  push_children taxids stack children =
  reverse (filter (fun child => child ∉ taxids) children) ++ stack.
Proof.
  unfold push_children. revert stack.
  induction children as [|child children IH]; intros stack; simpl.
  - done.
  - rewrite IH, filter_cons. destruct (decide (child ∈ taxids)).
    + by rewrite decide_False by auto.
    + rewrite decide_True by done. by rewrite reverse_cons, <-app_assoc.
Qed.

Lemma bfs_merge_perm rest new : bfs_merge rest new ≡ₚ rest ++ new.
Proof. done. Qed.

Lemma dfs_merge_perm rest new : dfs_merge rest new ≡ₚ rest ++ new.
Proof. unfold dfs_merge. by rewrite reverse_Permutation, (comm (++)). Qed.

Lemma bfs_loop_worklist fuel cm taxids queue :
  bfs_loop fuel cm taxids queue = worklist_loop bfs_merge fuel cm taxids queue.
Proof.
  revert taxids queue. induction fuel as [|fuel IH]; intros taxids queue; [done|].
  simpl. destruct queue as [|current queue']; [done|].
  by rewrite enqueue_children_filter, IH.
Qed.

Lemma dfs_loop_worklist fuel cm taxids stack :
  dfs_loop fuel cm taxids stack = worklist_loop dfs_merge fuel cm taxids stack.
Proof.
  revert taxids stack. induction fuel as [|fuel IH]; intros taxids stack; [done|].
  simpl. destruct stack as [|current stack']; [done|].
  by rewrite push_children_filter, IH.
Qed.

(** * The subtree selector returns the subtree *)

Lemma get_descendants_total (nodes : dict node) root fuel :
  dict_wf nodes → (length nodes + 1 < fuel)%nat →
  ∃ taxids, get_descendants fuel nodes root = Some taxids ∧
            ∀ x, x ∈ taxids ↔ in_subtree nodes root x.
Proof.
  intros Hwf Hfuel. unfold get_descendants. rewrite bfs_loop_worklist.
  apply (worklist_loop_returns nodes root Hwf bfs_merge bfs_merge_perm);
    [by apply traversal_inv_init|].
  pose proof (pending_le nodes ∅). change (length [root]) with 1%nat.
  lia.
Qed.

Lemma get_descendants_dfs_total (nodes : dict node) root fuel :
  dict_wf nodes → (length nodes + 1 < fuel)%nat →
  ∃ taxids, get_descendants_dfs fuel nodes root = Some taxids ∧
            ∀ x, x ∈ taxids ↔ in_subtree nodes root x.
Proof.
  intros Hwf Hfuel. unfold get_descendants_dfs. rewrite dfs_loop_worklist.
  apply (worklist_loop_returns nodes root Hwf dfs_merge dfs_merge_perm);
    [by apply traversal_inv_init|].
  pose proof (pending_le nodes ∅). change (length [root]) with 1%nat.
  lia.
Qed.

Lemma get_descendants_fuel_mono (nodes : dict node) root fuel fuel' taxids :
  get_descendants fuel nodes root = Some taxids → (fuel ≤ fuel')%nat →
  get_descendants fuel' nodes root = Some taxids.
Proof.
  unfold get_descendants. rewrite !bfs_loop_worklist.
  apply worklist_loop_fuel_mono.
Qed.

Lemma get_descendants_dfs_fuel_mono (nodes : dict node) root fuel fuel' taxids :
  get_descendants_dfs fuel nodes root = Some taxids → (fuel ≤ fuel')%nat →
  get_descendants_dfs fuel' nodes root = Some taxids.
Proof.
  unfold get_descendants_dfs. rewrite !dfs_loop_worklist.
  apply worklist_loop_fuel_mono.
Qed.

Lemma get_descendants_returns_unique (nodes : dict node) root taxids taxids' :
  get_descendants_returns nodes root taxids →
  get_descendants_returns nodes root taxids' →
  taxids = taxids'.
Proof.
  intros [fuel H] [fuel' H'].
  apply (get_descendants_fuel_mono _ _ _ (fuel `max` fuel')%nat) in H; [|lia].
  apply (get_descendants_fuel_mono _ _ _ (fuel `max` fuel')%nat) in H'; [|lia].
  congruence.
Qed.

Lemma get_descendants_returns_subtree (nodes : dict node) root taxids :
  dict_wf nodes → get_descendants_returns nodes root taxids →
  ∀ x, x ∈ taxids ↔ in_subtree nodes root x.
Proof.
  intros Hwf Hret.
  destruct (get_descendants_total nodes root (length nodes + 2) Hwf)
    as (taxids' & Hrun & Hspec); [lia|].
  by rewrite (get_descendants_returns_unique _ _ _ _ Hret (ex_intro _ _ Hrun)).
Qed.

Lemma in_subtree_key (nodes : dict node) root x :
  in_subtree nodes root x → x = root ∨ x ∈ nodes.*1.
Proof.
  intros [->|(p & _ & Hpx)]%rtc_inv_r; [by left|].
  right. by eapply is_child_key.
Qed.

(** * The recorded run *)

Lemma log_inv_init root : log_inv ∅ [Enqueue root].
Proof.
  split_and!.
  - intros [|i] j id Hi; inv Hi.
  - intros [|i] j id Hi; inv Hi.
  - intros x. rewrite list_elem_of_singleton. set_solver.
Qed.

Lemma log_inv_dequeue V log c :
  c ∉ V → log_inv V log → log_inv (V ∪ {[c]}) (log ++ [Dequeue c]).
Proof.
  intros Hc (Honce & Hafter & Hdom). split_and!.
  - intros i j id Hi Hj.
    apply lookup_snoc_Some in Hi as [[_ Hi]|[-> Hi]];
      apply lookup_snoc_Some in Hj as [[_ Hj]|[-> Hj]]; simplify_eq.
    + eauto.
    + apply list_elem_of_lookup_2, Hdom in Hi. done.
    + apply list_elem_of_lookup_2, Hdom in Hj. done.
    + done.
  - intros i j id Hi Hj.
    apply lookup_snoc_Some in Hi as [[_ Hi]|[-> Hi]];
      apply lookup_snoc_Some in Hj as [[Hlt Hj]|[-> Hj]]; simplify_eq.
    + eauto.
    + done.
  - intros x. rewrite elem_of_app, list_elem_of_singleton, Hdom.
    rewrite elem_of_union, elem_of_singleton. naive_solver.
Qed.

Lemma log_inv_enqueue V log x :
  x ∉ V → log_inv V log → log_inv V (log ++ [Enqueue x]).
Proof.
  intros Hx (Honce & Hafter & Hdom). split_and!.
  - intros i j id Hi Hj.
    apply lookup_snoc_Some in Hi as [[_ Hi]|[-> Hi]];
      apply lookup_snoc_Some in Hj as [[_ Hj]|[-> Hj]]; simplify_eq.
    eauto.
  - intros i j id Hi Hj.
    apply lookup_snoc_Some in Hi as [[_ Hi]|[-> Hi]];
      apply lookup_snoc_Some in Hj as [[Hlt Hj]|[-> Hj]]; simplify_eq.
    + eauto.
    + apply list_elem_of_lookup_2, Hdom in Hi. done.
  - intros y. rewrite elem_of_app, list_elem_of_singleton, Hdom. naive_solver.
Qed.

Lemma enqueue_children_log_spec V queue log children :
  log_inv V log →
  ∃ log', enqueue_children_log V (queue, log) children =
            (enqueue_children V queue children, log') ∧
          log_inv V log'.
Proof.
  unfold enqueue_children_log, enqueue_children. revert queue log.
  induction children as [|child children IH]; intros queue log Hlog; simpl.
  - eauto.
  - destruct (decide (child ∈ V)); [by apply IH|].
    apply IH. by apply log_inv_enqueue.
Qed.

Lemma bfs_loop_log_spec (nodes : dict node) root fuel V Q log :
  dict_wf nodes → traversal_inv nodes root V Q → log_inv V log →
  match bfs_loop_log fuel (build_children_map nodes) V Q log with
  | Some (taxids, log') =>
      bfs_loop fuel (build_children_map nodes) V Q = Some taxids ∧
      log_inv taxids log'
  | None => bfs_loop fuel (build_children_map nodes) V Q = None
  end.
Proof.
  intros Hwf. revert V Q log.
  induction fuel as [|fuel IH]; intros V Q log Hinv Hlog; [done|].
  destruct Q as [|c rest]; simpl; [done|].
  assert (c ∉ V) as HcV by (apply (inv_fresh _ _ _ _ Hinv); left).
  destruct (enqueue_children_log_spec (V ∪ {[c]}) rest (log ++ [Dequeue c])
              (children_of (build_children_map nodes) c))
    as (log' & -> & Hlog'); [by apply log_inv_dequeue|].
  apply IH; [|done].
  eapply traversal_inv_step; [done.. |]. by rewrite enqueue_children_filter.
Qed.

(** * Properties of the subtree selector *)

(** Key uniqueness of a concrete dictionary, by evaluation. *)
Ltac solve_dict_wf :=
  unfold dict_wf; apply (bool_decide_unpack _); vm_compute; exact I.

(** C2. For every node mapping and every root id the call returns, and the
    set it returns contains the root id. *)
Theorem get_descendants_contains_root (nodes : dict node) (root : Z) :
  dict_wf nodes →
  (∃ taxids, get_descendants_returns nodes root taxids) ∧
  (∀ taxids, get_descendants_returns nodes root taxids → root ∈ taxids).
Proof.
  intros Hwf. split.
  - destruct (get_descendants_total nodes root (length nodes + 2) Hwf)
      as (taxids & Hrun & _); [lia|]. exists taxids. by eexists.
  - intros taxids Hret.
    apply (get_descendants_returns_subtree nodes root taxids Hwf Hret).
    apply rtc_refl.
Qed.

Lemma get_descendants_contains_root_witness :
  let nodes := [(1, (1, "no rank", 8)); (2, (1, "kingdom", 4))] in
  (∃ taxids, get_descendants_returns nodes 1 taxids) ∧
  (∀ taxids, get_descendants_returns nodes 1 taxids → 1 ∈ taxids).
Proof.
  apply (get_descendants_contains_root [(1, (1, "no rank", 8)); (2, (1, "kingdom", 4))] 1).
  solve_dict_wf.
Defined.

(** C3. In the recorded run of the breadth-first loop every id is dequeued
    at most once and no id is enqueued after it was visited; the ids
    dequeued are the ids returned, and dropping the record gives the run
    of [get_descendants]. *)
Theorem get_descendants_visits_once (nodes : dict node) (root : Z) :
  dict_wf nodes →
  ∃ taxids log,
    (∀ fuel, (length nodes + 1 < fuel)%nat →
       get_descendants_log fuel nodes root = Some (taxids, log) ∧
       get_descendants fuel nodes root = Some taxids) ∧
    visited_once log ∧
    no_enqueue_after_visit log ∧
    (∀ id, Dequeue id ∈ log ↔ id ∈ taxids).
Proof.
  intros Hwf.
  assert (∀ fuel, (length nodes + 1 < fuel)%nat →
    ∃ taxids log, get_descendants_log fuel nodes root = Some (taxids, log) ∧
                  get_descendants fuel nodes root = Some taxids ∧
                  log_inv taxids log) as Hrun.
  { intros fuel Hfuel.
    destruct (get_descendants_total nodes root fuel Hwf Hfuel) as (taxids & Hrun & _).
    pose proof (bfs_loop_log_spec nodes root fuel ∅ [root] [Enqueue root] Hwf
                  (traversal_inv_init nodes root Hwf) (log_inv_init root)) as Hlog.
    unfold get_descendants_log, get_descendants in *.
    destruct (bfs_loop_log _ _ _ _ _) as [[taxids' log]|]; [|congruence].
    destruct Hlog as [Hrun' Hlog]. exists taxids', log. split_and!; [done..|].
    congruence. }
  destruct (Hrun (length nodes + 2)%nat ltac:(lia))
    as (taxids & log & Hlog & Hbfs & Honce & Hafter & Hdom).
  exists taxids, log. split_and!; [|done..].
  intros fuel Hfuel. destruct (Hrun fuel Hfuel) as (taxids' & log' & Hlog' & Hbfs' & _).
  assert (taxids' = taxids) as ->.
  { apply (get_descendants_fuel_mono _ _ _ (fuel + length nodes + 2)) in Hbfs; [|lia].
    apply (get_descendants_fuel_mono _ _ _ (fuel + length nodes + 2)) in Hbfs'; [|lia].
    congruence. }
  split; [|done]. rewrite Hlog'. f_equal. f_equal.
  (* the record is the same for every sufficient amount of fuel *)
  clear -Hlog Hlog' Hfuel. unfold get_descendants_log in *.
  revert Hlog Hlog'. generalize (build_children_map nodes) as cm.
  generalize (length nodes + 2)%nat as fuel0.
  generalize (∅ : gset Z) as V. generalize [root] as Q.
  generalize [Enqueue root] as log0. clear. intros log0 Q V fuel0 cm.
  revert fuel0 log0 Q V. induction fuel as [|fuel IH]; intros [|fuel0] log0 Q V; try done.
  simpl. destruct Q as [|c rest]; [congruence|].
  destruct (enqueue_children_log _ _ _) as [queue'' log'']. apply IH.
Qed.

Lemma get_descendants_visits_once_witness :
  let nodes := [(1, (2, "genus", 4)); (2, (1, "family", 4))] in
  ∃ taxids log,
    (∀ fuel, (length nodes + 1 < fuel)%nat →
       get_descendants_log fuel nodes 1 = Some (taxids, log) ∧
       get_descendants fuel nodes 1 = Some taxids) ∧
    visited_once log ∧
    no_enqueue_after_visit log ∧
    (∀ id, Dequeue id ∈ log ↔ id ∈ taxids).
Proof.
  apply (get_descendants_visits_once [(1, (2, "genus", 4)); (2, (1, "family", 4))] 1).
  solve_dict_wf.
Defined.

(** C4. The breadth-first selector and the depth-first traversal of the
    same parent-to-children index both return, and return the same set. *)
Theorem get_descendants_bfs_dfs_same_set (nodes : dict node) (root : Z) :
  dict_wf nodes →
  ∃ taxids,
    get_descendants_returns nodes root taxids ∧
    get_descendants_dfs_returns nodes root taxids.
Proof.
  intros Hwf.
  destruct (get_descendants_total nodes root (length nodes + 2) Hwf)
    as (bfs & Hbfs & Hbfs_spec); [lia|].
  destruct (get_descendants_dfs_total nodes root (length nodes + 2) Hwf)
    as (dfs & Hdfs & Hdfs_spec); [lia|].
  exists bfs. split; [by eexists|].
  assert (bfs = dfs) as ->; [|by eexists].
  apply set_eq. intros x. by rewrite Hbfs_spec, Hdfs_spec.
Qed.

Lemma get_descendants_bfs_dfs_same_set_witness :
  ∃ taxids,
    get_descendants_returns
      [(1, (1, "a", 0)); (2, (1, "b", 0)); (3, (2, "c", 0)); (4, (1, "d", 0))]
      1 taxids ∧
    get_descendants_dfs_returns
      [(1, (1, "a", 0)); (2, (1, "b", 0)); (3, (2, "c", 0)); (4, (1, "d", 0))]
      1 taxids.
Proof.
  apply (get_descendants_bfs_dfs_same_set
           [(1, (1, "a", 0)); (2, (1, "b", 0)); (3, (2, "c", 0)); (4, (1, "d", 0))] 1).
  solve_dict_wf.
Defined.

(** C5. On the mapping 1 -> parent 1, 2 -> parent 1, 3 -> parent 1,
    4 -> parent 2, 5 -> parent 99, whatever the ranks and division ids,
    the selector called with root 1 returns exactly {1, 2, 3, 4}; 5 is
    not in it. *)
Theorem get_descendants_small_tree (r1 r2 r3 r4 r5 : string) (d1 d2 d3 d4 d5 : Z) :
  let nodes := [(1, (1, r1, d1)); (2, (1, r2, d2)); (3, (1, r3, d3));
                (4, (2, r4, d4)); (5, (99, r5, d5))] in
  get_descendants_returns nodes 1 {[1; 2; 3; 4]} ∧
  (∀ taxids, get_descendants_returns nodes 1 taxids → taxids = {[1; 2; 3; 4]}) ∧
  5 ∉ ({[1; 2; 3; 4]} : gset Z).
Proof.
  intros nodes.
  assert (get_descendants_returns nodes 1 {[1; 2; 3; 4]}) as Hret.
  { exists 5%nat. vm_compute. reflexivity. }
  split_and!; [done| |set_solver].
  intros taxids Hret'. by apply (get_descendants_returns_unique nodes 1).
Qed.

(** C9. The selector terminates on every node mapping and every root id,
    cycles included: the loop condition is tested at most
    [length nodes + 2] times. *)
Theorem get_descendants_terminates (nodes : dict node) (root : Z) :
  dict_wf nodes →
  ∀ fuel, (length nodes + 1 < fuel)%nat →
    is_Some (get_descendants fuel nodes root).
Proof.
  intros Hwf fuel Hfuel.
  destruct (get_descendants_total nodes root fuel Hwf Hfuel) as (taxids & -> & _).
  by eexists.
Qed.

Lemma get_descendants_terminates_witness :
  is_Some (get_descendants 4 [(1, (2, "genus", 4)); (2, (1, "family", 4))] 1).
Proof.
  apply (get_descendants_terminates [(1, (2, "genus", 4)); (2, (1, "family", 4))] 1).
  - solve_dict_wf.
  - simpl. lia.
Defined.

(** * The SQL renderer *)

Lemma for_each_write {A} (xs : list A) (body : A → fileio unit)
    (f : A → string) out :
  (∀ x out, body x out = (out ++ [f x], Ok ())) →
  for_each xs body out = (out ++ (f <$> xs), Ok ()).
Proof.
  intros Hbody. revert out. induction xs as [|x xs IH]; intros out; simpl.
  - by rewrite app_nil_r.
  - unfold mbind, fileio_bind. rewrite Hbody, IH. by rewrite <-app_assoc.
Qed.

(** The taxon loop stops at the first id that is not a key of [nodes]. *)
Lemma for_each_lookup (nodes : dict node) (ids : list Z)
    (body : Z → fileio unit) out :
  (∀ t out, body t out =
     match dict_get nodes t with
     | Some _ => (out ++ [taxon_statement nodes t], Ok ())
     | None => (out, Raise (KeyError t))
     end) →
  for_each ids body out =
    match list_find (fun t => dict_get nodes t = None) ids with
    | None => (out ++ (taxon_statement nodes <$> ids), Ok ())
    | Some (i, t) =>
        (out ++ (taxon_statement nodes <$> take i ids), Raise (KeyError t))
    end.
Proof.
  intros Hbody. revert out. induction ids as [|t ids IH]; intros out; simpl.
  - by rewrite app_nil_r.
  - unfold mbind, fileio_bind. rewrite Hbody.
    destruct (dict_get nodes t) as [n|] eqn:Hget.
    + rewrite decide_False by done. rewrite IH.
      destruct (list_find _ ids) as [[i t']|]; simpl; by rewrite <-app_assoc.
    + rewrite decide_True by done. simpl. by rewrite app_nil_r.
Qed.

Lemma taxon_body_run (nodes : dict node) t out :
  (' (parent_id, rank, division_id) ← eval (dict_item nodes t);
   let rank_sql := Str.replace Str.QUOTE "''" rank in
   write (taxon_insert t parent_id rank_sql division_id)) out =
  match dict_get nodes t with
  | Some _ => (out ++ [taxon_statement nodes t], Ok ())
  | None => (out, Raise (KeyError t))
  end.
Proof.
  unfold mbind, fileio_bind, eval, dict_item, taxon_statement, write.
  by destruct (dict_get nodes t) as [[[p r] d]|].
Qed.

(** What the renderer writes, and whether it raises. *)
Lemma export_sql_with_division_run (nodes : dict node) (names : dict string)
    (taxids : gset Z) (divisions : dict division) :
  export_sql_with_division nodes names taxids divisions =
    let before :=
      division_schema ++ (division_statement <$> divisions) ++ [nl]
        ++ taxon_schema ++ taxon_name_schema in
    match list_find (fun t => dict_get nodes t = None) (sorted taxids) with
    | None =>
        (before ++ (taxon_statement nodes <$> sorted taxids) ++ [nl]
           ++ (taxon_name_statement <$> names), Ok ())
    | Some (i, t) =>
        (before ++ (taxon_statement nodes <$> take i (sorted taxids)),
         Raise (KeyError t))
    end.
Proof.
  unfold export_sql_with_division, with_output.
  cbv [mbind fileio_bind write]. simpl.
  rewrite (for_each_write divisions _ division_statement)
    by (by intros [div_id d] out).
  rewrite (for_each_lookup nodes (sorted taxids)) by apply taxon_body_run.
  cbv zeta. unfold division_schema, taxon_schema, taxon_name_schema.
  destruct (list_find _ (sorted taxids)) as [[i t]|].
  - f_equal. simpl. rewrite <-!app_assoc. simpl. done.
  - rewrite (for_each_write names _ taxon_name_statement)
      by (by intros [tax_id name] out).
    f_equal. simpl. rewrite <-!app_assoc. simpl. done.
Qed.

Lemma elem_of_sorted (taxids : gset Z) t : t ∈ sorted taxids ↔ t ∈ taxids.
Proof. unfold sorted. by rewrite merge_sort_Permutation, elem_of_elements. Qed.

Lemma StronglySorted_le_lt (l : list Z) :
  StronglySorted Z.le l → NoDup l → StronglySorted Z.lt l.
Proof.
  induction 1 as [|x l Hl IH Hx]; intros Hnd; [constructor|].
  apply NoDup_cons in Hnd as [Hxl Hnd]. constructor.
  - by apply IH.
  - apply Forall_forall. intros y Hy.
    pose proof (proj1 (Forall_forall _ _) Hx y Hy).
    assert (x ≠ y) by (by intros ->). lia.
Qed.

Lemma sorted_ascending (taxids : gset Z) : StronglySorted Z.lt (sorted taxids).
Proof.
  apply StronglySorted_le_lt.
  - unfold sorted. apply StronglySorted_merge_sort; apply _.
  - unfold sorted. rewrite merge_sort_Permutation. apply NoDup_elements.
Qed.

Lemma filter_statements {A} (p : string → bool) (f : A → string) (b : bool)
    (xs : list A) :
  (∀ x, x ∈ xs → p (f x) = b) →
  List.filter p (f <$> xs) = if b then f <$> xs else [].
Proof.
  induction xs as [|x xs IH]; intros Hp.
  - by destruct b.
  - rewrite fmap_cons. cbn [List.filter].
    rewrite (Hp x) by left. rewrite IH by (intros; apply Hp; by right).
    by destruct b.
Qed.

Lemma taxon_statement_kind (nodes : dict node) t :
  is_Some (dict_get nodes t) →
  is_taxon_insert (taxon_statement nodes t) = true ∧
  is_taxon_name_insert (taxon_statement nodes t) = false ∧
  is_division_insert (taxon_statement nodes t) = false.
Proof.
  intros [[[p r] d] Hget]. unfold taxon_statement. rewrite Hget.
  repeat split; reflexivity.
Qed.

Lemma division_statement_kind (entry : Z * division) :
  is_division_insert (division_statement entry) = true ∧
  is_taxon_insert (division_statement entry) = false ∧
  is_taxon_name_insert (division_statement entry) = false.
Proof. destruct entry as [div_id [[code name] comment]]. repeat split; reflexivity. Qed.

Lemma taxon_name_statement_kind (entry : Z * string) :
  is_taxon_name_insert (taxon_name_statement entry) = true ∧
  is_taxon_insert (taxon_name_statement entry) = false ∧
  is_division_insert (taxon_name_statement entry) = false.
Proof. destruct entry as [tax_id name]. repeat split; reflexivity. Qed.

(** The statements of one table among everything a complete run wrote. *)
Lemma filter_output (p : string → bool) (nodes : dict node) (names : dict string)
    (ids : list Z) (divisions : dict division) (bd bt bn : bool) :
  List.filter p division_schema = [] →
  List.filter p taxon_schema = [] →
  List.filter p taxon_name_schema = [] →
  p nl = false →
  (∀ x, p (division_statement x) = bd) →
  (∀ t, t ∈ ids → p (taxon_statement nodes t) = bt) →
  (∀ x, p (taxon_name_statement x) = bn) →
  List.filter p
    (division_schema ++ (division_statement <$> divisions) ++ [nl]
       ++ taxon_schema ++ taxon_name_schema
       ++ (taxon_statement nodes <$> ids) ++ [nl]
       ++ (taxon_name_statement <$> names)) =
  (if bd then division_statement <$> divisions else [])
    ++ (if bt then taxon_statement nodes <$> ids else [])
    ++ (if bn then taxon_name_statement <$> names else []).
Proof.
  intros H1 H2 H3 Hnl Hd Ht Hn. rewrite !List.filter_app, H1, H2, H3.
  rewrite (filter_statements p division_statement bd divisions) by auto.
  rewrite (filter_statements p (taxon_statement nodes) bt ids) by auto.
  rewrite (filter_statements p taxon_name_statement bn names) by auto.
  cbn [List.filter]. rewrite Hnl. done.
Qed.

Lemma export_sql_with_division_ok (nodes : dict node) (names : dict string)
    (taxids : gset Z) (divisions : dict division) :
  (∀ t, t ∈ taxids → is_Some (dict_get nodes t)) →
  export_sql_with_division nodes names taxids divisions =
    (division_schema ++ (division_statement <$> divisions) ++ [nl]
       ++ taxon_schema ++ taxon_name_schema
       ++ (taxon_statement nodes <$> sorted taxids) ++ [nl]
       ++ (taxon_name_statement <$> names), Ok ()).
Proof.
  intros Hkeys. rewrite export_sql_with_division_run. cbv zeta.
  destruct (list_find _ (sorted taxids)) as [[i t]|] eqn:Hfind.
  - apply list_find_Some in Hfind as (Ht%list_elem_of_lookup_2 & Hnone & _).
    apply elem_of_sorted, Hkeys in Ht as [n Hn]. congruence.
  - by rewrite <-!app_assoc.
Qed.



(** The name statements follow the name mapping also where that is not the
    order of the ids. *)
Example export_sql_names_not_sorted :
  List.filter is_taxon_name_insert
    (export_sql_with_division [] [(7, "Rosa"); (3, "Rosa canina")] ∅ []).1 =
  [ "INSERT INTO taxon_name VALUES (7, 'Rosa');" +:+ nl;
    "INSERT INTO taxon_name VALUES (3, 'Rosa canina');" +:+ nl ].
Proof. reflexivity. Qed.

(** C10. Every id the selector returns, the root apart, is a key of the
    node mapping; so the renderer run on that set returns when the root is
    a key, and the only exception it can raise is the [KeyError] of the
    root. *)
Theorem get_descendants_members_are_keys (nodes : dict node) (root : Z)
    (taxids : gset Z) :
  dict_wf nodes →
  get_descendants_returns nodes root taxids →
  (∀ t, t ∈ taxids → t ≠ root → is_Some (dict_get nodes t)) ∧
  (is_Some (dict_get nodes root) →
   ∀ names divisions, ∃ out,
     export_sql_with_division nodes names taxids divisions = (out, Ok ())) ∧
  (∀ names divisions out e,
     export_sql_with_division nodes names taxids divisions = (out, Raise e) →
     e = KeyError root ∧ dict_get nodes root = None).
Proof.
  intros Hwf Hret.
  assert (∀ t, t ∈ taxids → t ≠ root → is_Some (dict_get nodes t)) as Hkeys.
  { intros t Ht Hne. apply dict_get_is_Some.
    apply (get_descendants_returns_subtree nodes root taxids Hwf Hret) in Ht.
    by destruct (in_subtree_key nodes root t Ht). }
  split_and!; [done| |].
  - intros Hroot names divisions. eexists.
    apply export_sql_with_division_ok. intros t Ht.
    destruct (decide (t = root)) as [->|]; auto.
  - intros names divisions out e. rewrite export_sql_with_division_run. cbv zeta.
    destruct (list_find _ (sorted taxids)) as [[i t]|] eqn:Hfind; [|done].
    apply list_find_Some in Hfind as (Ht%list_elem_of_lookup_2 & Hnone & _).
    apply elem_of_sorted in Ht. intros [= _ <-].
    destruct (decide (t = root)) as [->|Hne]; [done|].
    destruct (Hkeys t Ht Hne) as [n Hn]. congruence.
Qed.

Lemma get_descendants_members_are_keys_witness :
  let nodes := [(2, (1, "genus", 4)); (3, (2, "species", 4))] in
  (∀ t, t ∈ ({[1; 2; 3]} : gset Z) → t ≠ 1 → is_Some (dict_get nodes t)) ∧
  (is_Some (dict_get nodes 1) →
   ∀ names divisions, ∃ out,
     export_sql_with_division nodes names {[1; 2; 3]} divisions = (out, Ok ())) ∧
  (∀ names divisions out e,
     export_sql_with_division nodes names {[1; 2; 3]} divisions = (out, Raise e) →
     e = KeyError 1 ∧ dict_get nodes 1 = None).
Proof.
  apply (get_descendants_members_are_keys
           [(2, (1, "genus", 4)); (3, (2, "species", 4))] 1 {[1; 2; 3]}).
  - solve_dict_wf.
  - exists 4%nat. vm_compute. reflexivity.
Defined.

(** C1 fails on the division table: the renderer writes the comment
    [O'Brien] of a division as it is, its single quote not doubled. *)
Theorem export_sql_division_quote_not_doubled :
  let line := "7" +:+ Str.SEP +:+ "OBR" +:+ Str.SEP +:+ "Test division"
                +:+ Str.SEP +:+ "O'Brien" +:+ nl in
  let divisions := [(7, ("OBR", "Test division", "O'Brien"))] in
  parse_division [line] = Ok divisions ∧
  List.filter is_division_insert
    (export_sql_with_division [] [] ∅ divisions).1 =
  [ "INSERT INTO division VALUES (7, 'OBR', 'Test division', 'O'Brien');" +:+ nl ].
Proof. split; reflexivity. Qed.

(** The same text as a rank or as a name is written with the quote
    doubled. *)
Example export_sql_rank_and_name_quote_doubled :
  (export_sql_with_division [(1, (1, "O'Brien", 7))] [(1, "O'Brien")] {[1]} []).1 =
  division_schema ++ [nl] ++ taxon_schema ++ taxon_name_schema ++
  [ "INSERT INTO taxon VALUES (1, 1, 'O''Brien', 7);" +:+ nl; nl;
    "INSERT INTO taxon_name VALUES (1, 'O''Brien');" +:+ nl ].
Proof. reflexivity. Qed.

(** * The loaders *)

Lemma assign_all_get {V} (record : string → option (Z * V)) f (d : dict V) k v :
  dict_get (assign_all record f d) k = Some v ↔
  last_record record f k v ∨
  (Forall (fun l => ∀ v', record l ≠ Some (k, v')) f ∧ dict_get d k = Some v).
Proof.
  unfold assign_all. revert d. induction f as [|line f IH]; intros d; simpl.
  - split; [intros; right; by split|].
    intros [(before & l & after & Hf & _)|[_ ?]]; [|done].
    by destruct before.
  - rewrite IH. clear IH. split.
    + intros [(before & l & after & -> & Hl & Hafter)|[Hnone Hget]].
      * left. exists (line :: before), l, after. done.
      * destruct (record line) as [[k' v']|] eqn:Hrec.
        -- rewrite dict_get_set in Hget. case_decide as Hk.
           ++ subst k'. injection Hget as ->. left. by exists [], line, f.
           ++ right. split; [|done]. constructor; [|done]. congruence.
        -- right. split; [|done]. constructor; [|done]. congruence.
    + intros [(before & l & after & Hf & Hl & Hafter)|[Hnone Hget]].
      * destruct before as [|line' before]; simplify_eq/=.
        -- right. split; [done|]. rewrite Hl, dict_get_set. by rewrite decide_True.
        -- left. by exists before, l, after.
      * apply Forall_cons in Hnone as [Hline Hnone]. right. split; [done|].
        destruct (record line) as [[k' v']|] eqn:Hrec; [|done].
        rewrite dict_get_set. rewrite decide_False; [done|].
        intros <-. by apply (Hline v').
Qed.

Lemma assign_all_wf {V} (record : string → option (Z * V)) f (d : dict V) :
  dict_wf d → dict_wf (assign_all record f d).
Proof.
  unfold assign_all. revert d. induction f as [|line f IH]; intros d Hd; [done|].
  simpl. apply IH. destruct (record line) as [[k v]|]; [|done].
  by apply dict_set_wf.
Qed.

Lemma fields_nonempty line : ∃ f0 rest, fields line = f0 :: rest.
Proof.
  unfold fields. generalize (Str.strip line) as s.
  assert (∀ c l, ∃ f0 rest, Str.cons_field c l = f0 :: rest) as Hcons
    by (intros c [|? ?]; simpl; eauto).
  intros s. destruct s as [|c s]; simpl; [eauto|].
  destruct s as [|c2 [|c3 rest]]; try apply Hcons.
  destruct (_ && _); [eauto | apply Hcons].
Qed.

Lemma int_raises s e : Str.int s = Raise e → e = ValueError.
Proof. unfold Str.int. intros H. repeat case_match; congruence. Qed.

(** [strip] removes a file separator (code 28) at the end of a field, [int]
    does not skip it: a line whose id field is a number followed by one is
    a line whose first field is not an integer. *)
Example int_rejects_separator :
  let field := String "7" (String "028" EmptyString) in
  Str.strip field = "7" ∧
  Str.int field = Raise ValueError ∧
  parse_division
    [ field +:+ Str.SEP +:+ "PLN" +:+ Str.SEP +:+ "Plants" +:+ Str.SEP
        +:+ "-" +:+ nl ] = Raise ValueError ∧
  parse_names [ field +:+ Str.SEP +:+ "Rosa" +:+ nl ] {[7]} = Raise ValueError.
Proof. repeat split; reflexivity. Qed.

Lemma division_record_None line :
  division_record line = None ↔ too_few_fields 4 line ∨ first_field_not_int line.
Proof.
  unfold division_record, too_few_fields, first_field_not_int.
  destruct (fields_nonempty line) as (f0 & rest & ->).
  destruct (Str.int f0) as [n|e] eqn:Hint.
  - destruct rest as [|f1 [|f2 [|f3 rest]]]; simpl; split;
      try (intros; left; lia); try done.
    + intros [?|(? & ? & [= <- <-] & ?)]; [lia | congruence].
  - apply int_raises in Hint as Hv. subst e. split; [|by destruct rest as [|f1 [|f2 [|f3 rest]]]].
    intros _. right. eauto.
Qed.

Lemma parse_division_lines_cons line f divisions :
  match division_record line with
  | Some (division_id, d) =>
      parse_division_lines (line :: f) divisions =
      parse_division_lines f (dict_set divisions division_id d)
  | None => ∃ e, parse_division_lines (line :: f) divisions = Raise e
  end.
Proof.
  simpl. unfold division_record, index.
  destruct (fields_nonempty line) as (f0 & rest & ->). simpl.
  destruct (Str.int f0) as [n|e] eqn:Hint; simpl.
  - destruct rest as [|f1 [|f2 [|f3 rest]]]; simpl; eauto.
  - destruct rest as [|f1 [|f2 [|f3 rest]]]; simpl; eauto.
Qed.

Lemma parse_division_lines_ok f divisions :
  Forall (fun line => is_Some (division_record line)) f →
  parse_division_lines f divisions = Ok (assign_all division_record f divisions).
Proof.
  revert divisions. induction f as [|line f IH]; intros divisions Hf; [done|].
  apply Forall_cons in Hf as [[[id d] Hline] Hf].
  pose proof (parse_division_lines_cons line f divisions) as Hcons.
  rewrite Hline in Hcons. rewrite Hcons, IH by done.
  unfold assign_all. simpl. by rewrite Hline.
Qed.

Lemma parse_division_lines_raise f divisions :
  Exists (fun line => division_record line = None) f →
  ∃ e, parse_division_lines f divisions = Raise e.
Proof.
  intros Hf. revert divisions. induction Hf as [line f Hline|line f Hf IH];
    intros divisions.
  - pose proof (parse_division_lines_cons line f divisions) as Hcons.
    by rewrite Hline in Hcons.
  - pose proof (parse_division_lines_cons line f divisions) as Hcons.
    destruct (division_record line) as [[id d]|]; [|done].
    rewrite Hcons. apply IH.
Qed.

Lemma names_record_None line :
  names_record line = None ↔ too_few_fields 4 line ∨ first_field_not_int line.
Proof.
  unfold names_record, too_few_fields, first_field_not_int.
  destruct (fields_nonempty line) as (f0 & rest & ->).
  destruct (Str.int f0) as [n|e] eqn:Hint.
  - destruct rest as [|f1 [|f2 [|f3 rest]]]; simpl; split;
      try (intros; left; lia); try done.
    + intros [?|(? & ? & [= <- <-] & ?)]; [lia | congruence].
  - apply int_raises in Hint as Hv. subst e.
    split; [|by destruct rest as [|f1 [|f2 [|f3 rest]]]].
    intros _. right. eauto.
Qed.

Lemma parse_names_lines_cons line f taxid_filter names :
  match names_record line with
  | Some _ =>
      parse_names_lines (line :: f) taxid_filter names =
      parse_names_lines f taxid_filter
        (match scientific_name taxid_filter line with
         | Some (tax_id, name) => dict_set names tax_id name
         | None => names
         end)
  | None => ∃ e, parse_names_lines (line :: f) taxid_filter names = Raise e
  end.
Proof.
  simpl. unfold scientific_name, names_record, index.
  destruct (fields_nonempty line) as (f0 & rest & ->). simpl.
  destruct (Str.int f0) as [n|e] eqn:Hint; simpl.
  - destruct rest as [|f1 [|f2 [|f3 rest]]]; simpl; eauto.
    by destruct (decide _).
  - destruct rest as [|f1 [|f2 [|f3 rest]]]; simpl; eauto.
Qed.

Lemma parse_names_lines_ok f taxid_filter names :
  Forall (fun line => is_Some (names_record line)) f →
  parse_names_lines f taxid_filter names =
  Ok (assign_all (scientific_name taxid_filter) f names).
Proof.
  revert names. induction f as [|line f IH]; intros names Hf; [done|].
  apply Forall_cons in Hf as [[r Hline] Hf].
  pose proof (parse_names_lines_cons line f taxid_filter names) as Hcons.
  rewrite Hline in Hcons. rewrite Hcons, IH by done. done.
Qed.

Lemma parse_names_lines_raise f taxid_filter names :
  Exists (fun line => names_record line = None) f →
  ∃ e, parse_names_lines f taxid_filter names = Raise e.
Proof.
  intros Hf. revert names. induction Hf as [line f Hline|line f Hf IH];
    intros names.
  - pose proof (parse_names_lines_cons line f taxid_filter names) as Hcons.
    by rewrite Hline in Hcons.
  - pose proof (parse_names_lines_cons line f taxid_filter names) as Hcons.
    destruct (names_record line) as [r|]; [|done].
    rewrite Hcons. apply IH.
Qed.

Lemma scientific_name_Some taxid_filter line tax_id name :
  scientific_name taxid_filter line = Some (tax_id, name) ↔
  ∃ name_txt name_class,
    names_record line = Some (tax_id, name_txt, name_class) ∧
    tax_id ∈ taxid_filter ∧
    Str.strip name_class = "scientific name" ∧
    name = Str.strip name_txt.
Proof.
  unfold scientific_name.
  destruct (names_record line) as [[[id txt] cls]|]; [|naive_solver].
  case_decide as Hd.
  - split; [intros [= <- <-]; naive_solver|].
    intros (? & ? & [= <- <- <-] & ? & ? & ->). done.
  - split; [done|]. intros (? & ? & [= <- <- <-] & ? & ? & ->). naive_solver.
Qed.

(** Among lines of which some sets [k], there is a last one that does. *)
Lemma last_record_exists {V} (record : string → option (Z * V)) f k :
  (∃ line v, line ∈ f ∧ record line = Some (k, v)) →
  ∃ v, last_record record f k v.
Proof.
  assert (∀ l, fst <$> record l = Some k ↔ ∃ v, record l = Some (k, v)) as Hkey.
  { intros l. destruct (record l) as [[k' v']|]; simpl; [|naive_solver].
    split; [intros [= ->]; eauto | by intros (? & [= -> _])]. }
  induction f as [|l f IH]; intros (line & v & Hin & Hrec); [inv Hin|].
  destruct (decide (Exists (fun l' => fst <$> record l' = Some k) f))
    as [Hlater|Hnone].
  - apply Exists_exists in Hlater as (l' & Hl' & (v' & Hrec')%Hkey).
    destruct IH as (v'' & before & l'' & after & -> & ? & ?); [eauto|].
    exists v'', (l :: before), l'', after. done.
  - assert (Forall (fun l' => ∀ v', record l' ≠ Some (k, v')) f) as Hafter.
    { apply Forall_forall. intros l' Hl' v' Hrec'. apply Hnone.
      apply Exists_exists. exists l'. split; [done|]. apply Hkey. eauto. }
    apply elem_of_cons in Hin as [->|Hin].
    + by exists v, [], l, f.
    + destruct (proj1 (Forall_forall _ _) Hafter line Hin v Hrec).
Qed.

Lemma lstrip_head s c r : Str.lstrip s = String c r → Str.isspace c = false.
Proof.
  induction s as [|c' s IH]; simpl; [done|].
  destruct (Str.isspace c') eqn:Hc'; [done|]. by intros [= <- _].
Qed.

Lemma rstrip_last s :
  match Str.rstrip s with
  | EmptyString => True
  | r => ∃ z, Str.last_char r = Some z ∧ Str.isspace z = false
  end.
Proof.
  induction s as [|c s IH]; simpl; [done|].
  destruct (Str.rstrip s) as [|c' r].
  - destruct (Str.isspace c) eqn:Hc; [done|]. simpl. eauto.
  - destruct IH as (z & Hz & Hsp). exists z. split; [|done].
    simpl in *. done.
Qed.

Lemma rstrip_head c s :
  Str.isspace c = false → Str.rstrip (String c s) = String c (Str.rstrip s).
Proof. intros Hc. simpl. rewrite Hc. by destruct (Str.rstrip s). Qed.

Lemma strip_trimmed s : Str.trimmed (Str.strip s).
Proof.
  unfold Str.strip, Str.trimmed.
  destruct (Str.lstrip s) as [|c r] eqn:Hl; [done|].
  apply lstrip_head in Hl. rewrite (rstrip_head c r Hl). split; [done|].
  pose proof (rstrip_last (String c r)) as Hlast.
  by rewrite (rstrip_head c r Hl) in Hlast.
Qed.

(** C6. On a names input all of whose lines have at least four fields and
    an integer first field the name loader returns; the mapping has an
    entry for a taxon id exactly when the id is in the subtree set and
    some line for it has the name class [scientific name]; the entry is
    the name text of the last such line, trimmed. *)
Theorem parse_names_keeps_scientific_names (f : list string)
    (taxid_filter : gset Z) :
  Forall (fun line => ¬ (too_few_fields 4 line ∨ first_field_not_int line)) f →
  ∃ names,
    parse_names f taxid_filter = Ok names ∧
    dict_wf names ∧
    (∀ tax_id,
       is_Some (dict_get names tax_id) ↔
       tax_id ∈ taxid_filter ∧
       ∃ line name_txt name_class,
         line ∈ f ∧
         names_record line = Some (tax_id, name_txt, name_class) ∧
         Str.strip name_class = "scientific name") ∧
    (∀ before line after tax_id name_txt name_class,
       f = before ++ line :: after →
       names_record line = Some (tax_id, name_txt, name_class) →
       tax_id ∈ taxid_filter →
       Str.strip name_class = "scientific name" →
       Forall (fun l => ∀ name_txt' name_class',
                 names_record l = Some (tax_id, name_txt', name_class') →
                 Str.strip name_class' ≠ "scientific name") after →
       dict_get names tax_id = Some (Str.strip name_txt)) ∧
    (∀ tax_id name, dict_get names tax_id = Some name → Str.trimmed name).
Proof.
  intros Hf.
  assert (Forall (fun line => is_Some (names_record line)) f) as Hok.
  { eapply Forall_impl; [exact Hf|]. intros line Hline. simpl in Hline.
    rewrite <-names_record_None in Hline. by apply not_eq_None_Some. }
  exists (assign_all (scientific_name taxid_filter) f []).
  assert (∀ tax_id name,
    dict_get (assign_all (scientific_name taxid_filter) f []) tax_id = Some name ↔
    last_record (scientific_name taxid_filter) f tax_id name) as Hget.
  { intros tax_id name. rewrite assign_all_get. naive_solver. }
  split_and!.
  - by apply parse_names_lines_ok.
  - apply assign_all_wf. apply NoDup_nil_2.
  - intros tax_id. split.
    + intros [name (before & line & after & -> & Hline & _)%Hget].
      apply scientific_name_Some in Hline as (txt & cls & ? & ? & ? & _).
      split; [done|]. exists line, txt, cls. split_and!; [|done..].
      apply elem_of_app. right. left.
    + intros (Hin & line & txt & cls & Hline & Hrec & Hcls).
      destruct (last_record_exists (scientific_name taxid_filter) f tax_id)
        as (name & Hlast); [|exists name; by apply Hget].
      exists line, (Str.strip txt). split; [done|].
      apply scientific_name_Some. by exists txt, cls.
  - intros before line after tax_id txt cls -> Hrec Hin Hcls Hafter.
    apply Hget. exists before, line, after. split_and!; [done| |].
    + apply scientific_name_Some. by exists txt, cls.
    + eapply Forall_impl; [exact Hafter|]. intros l Hl name' Hsci. simpl in Hl.
      apply scientific_name_Some in Hsci as (txt' & cls' & ? & _ & ? & _).
      by eapply Hl.
  - intros tax_id name (before & line & after & _ & Hline & _)%Hget.
    apply scientific_name_Some in Hline as (txt & cls & _ & _ & _ & ->).
    apply strip_trimmed.
Qed.

Lemma parse_names_keeps_scientific_names_witness :
  let f := [ "3" +:+ Str.SEP +:+ "Rosa" +:+ Str.SEP +:+ Str.SEP
               +:+ "scientific name" +:+ nl;
             "3" +:+ Str.SEP +:+ "roses" +:+ Str.SEP +:+ Str.SEP
               +:+ "synonym" +:+ nl ] in
  ∃ names, parse_names f {[3]} = Ok names ∧ dict_get names 3 = Some "Rosa".
Proof.
  intros f.
  destruct (parse_names_keeps_scientific_names f {[3]})
    as (names & Hrun & _ & _ & Hlast & _).
  - repeat constructor; rewrite <-names_record_None; vm_compute; discriminate.
  - exists names. split; [done|].
    apply (Hlast [] _ [_] 3 "Rosa" "scientific name" eq_refl).
    + reflexivity.
    + set_solver.
    + reflexivity.
    + repeat constructor. intros txt cls [= <- <-]. vm_compute. discriminate.
Defined.

(** C8. The division loader raises as soon as some line has fewer than
    four fields or a first field that is not an integer; on lines that all
    have four fields and an integer first field it returns, and the entry
    of a division id is that of the last line with this id. *)
Theorem parse_division_malformed_or_last_wins (f : list string) :
  (Exists (fun line => too_few_fields 4 line ∨ first_field_not_int line) f →
   ∃ e, parse_division f = Raise e) ∧
  (Forall (fun line => ¬ (too_few_fields 4 line ∨ first_field_not_int line)) f →
   ∃ divisions,
     parse_division f = Ok divisions ∧
     dict_wf divisions ∧
     ∀ division_id d,
       dict_get divisions division_id = Some d ↔
       last_record division_record f division_id d).
Proof.
  split.
  - intros Hf. apply parse_division_lines_raise.
    eapply Exists_impl; [exact Hf|]. intros line. apply division_record_None.
  - intros Hf. exists (assign_all division_record f []). split_and!.
    + apply parse_division_lines_ok.
      eapply Forall_impl; [exact Hf|]. intros line Hline. simpl in Hline.
      rewrite <-division_record_None in Hline. by apply not_eq_None_Some.
    + apply assign_all_wf. apply NoDup_nil_2.
    + intros id d. rewrite assign_all_get. naive_solver.
Qed.

Lemma parse_division_malformed_or_last_wins_witness :
  let short := "0" +:+ Str.SEP +:+ "BCT" +:+ Str.SEP +:+ "Bacteria" +:+ nl in
  let first := "4" +:+ Str.SEP +:+ "PLN" +:+ Str.SEP +:+ "Plants"
                 +:+ Str.SEP +:+ "old" +:+ nl in
  let second := "4" +:+ Str.SEP +:+ "PLN" +:+ Str.SEP +:+ "Plants and Fungi"
                  +:+ Str.SEP +:+ "new" +:+ nl in
  (∃ e, parse_division [first; short] = Raise e) ∧
  (∃ divisions,
     parse_division [first; second] = Ok divisions ∧
     dict_get divisions 4 = Some ("PLN", "Plants and Fungi", "new")).
Proof.
  intros short first second. split.
  - apply (proj1 (parse_division_malformed_or_last_wins [first; short])).
    apply Exists_cons_tl, Exists_cons_hd. left.
    unfold too_few_fields. vm_compute. lia.
  - destruct (proj2 (parse_division_malformed_or_last_wins [first; second]))
      as (divisions & Hrun & _ & Hlast).
    + repeat constructor; rewrite <-division_record_None; vm_compute; discriminate.
    + exists divisions. split; [done|]. apply Hlast.
      exists [first], second, []. split_and!; [done|reflexivity|constructor].
Defined.

(** The node loader builds a dictionary: the keys of what it returns are
    unique. *)
Lemma parse_nodes_lines_wf f nodes nodes' :
  parse_nodes_lines f nodes = Ok nodes' → dict_wf nodes → dict_wf nodes'.
Proof.
  revert nodes. induction f as [|line f IH]; intros nodes; simpl.
  - by intros [= ->].
  - destruct (index (fields line) 0 ≫= Str.int) as [tax_id|]; [|done]. simpl.
    destruct (index (fields line) 1 ≫= Str.int) as [parent_id|]; [|done]. simpl.
    destruct (Str.strip <$> index (fields line) 2) as [rank|]; [|done]. simpl.
    destruct (index (fields line) 4 ≫= Str.int) as [division_id|]; [|done]. simpl.
    intros Hrun Hwf. eapply IH; [exact Hrun|]. by apply dict_set_wf.
Qed.

Lemma parse_nodes_with_division_wf f nodes :
  parse_nodes_with_division f = Ok nodes → dict_wf nodes.
Proof. intros Hrun. eapply parse_nodes_lines_wf; [exact Hrun|]. apply NoDup_nil_2. Qed.

(** * More on the loaders *)

Lemma records_Some_or_None {V} (record : string → option V) (f : list string) :
  Forall (fun line => is_Some (record line)) f ∨
  Exists (fun line => record line = None) f.
Proof.
  induction f as [|line f [IH|IH]].
  - left. constructor.
  - destruct (record line) eqn:Hline.
    + left. constructor; [by rewrite Hline|done].
    + right. by left.
  - right. by right.
Qed.

Lemma parse_division_Ok_inv f divisions :
  parse_division f = Ok divisions →
  Forall (fun line => is_Some (division_record line)) f ∧
  divisions = assign_all division_record f [].
Proof.
  intros Hrun. destruct (records_Some_or_None division_record f) as [Hf|Hf].
  - split; [done|]. unfold parse_division in Hrun.
    rewrite parse_division_lines_ok in Hrun by done. congruence.
  - destruct (parse_division_lines_raise f [] Hf) as [e He].
    unfold parse_division in Hrun. congruence.
Qed.

Lemma parse_names_Ok_inv f taxid_filter names :
  parse_names f taxid_filter = Ok names →
  Forall (fun line => is_Some (names_record line)) f ∧
  names = assign_all (scientific_name taxid_filter) f [].
Proof.
  intros Hrun. destruct (records_Some_or_None names_record f) as [Hf|Hf].
  - split; [done|]. unfold parse_names in Hrun.
    rewrite parse_names_lines_ok in Hrun by done. congruence.
  - destruct (parse_names_lines_raise f taxid_filter [] Hf) as [e He].
    unfold parse_names in Hrun. congruence.
Qed.

(** ** The node loader *)

Lemma node_record_None line :
  node_record line = None ↔ malformed_node_line line.
Proof.
  unfold node_record, malformed_node_line, too_few_fields, field_not_int.
  destruct (fields line) as [|f0 [|f1 [|f2 [|f3 [|f4 rest]]]]] eqn:Hf; simpl;
    try (split; [intros _; left; lia | done]).
  destruct (Str.int f0) as [n0|e0] eqn:H0;
    [|apply int_raises in H0 as He; subst e0; split; [|done]; intros _;
      right; left; eauto].
  destruct (Str.int f1) as [n1|e1] eqn:H1;
    [|apply int_raises in H1 as He; subst e1; split; [|done]; intros _;
      right; right; left; eauto].
  destruct (Str.int f4) as [n4|e4] eqn:H4;
    [|apply int_raises in H4 as He; subst e4; split; [|done]; intros _;
      right; right; right; eauto].
  split; [done|].
  intros [?|[(? & [= <-] & ?)|[(? & [= <-] & ?)|(? & [= <-] & ?)]]];
    (lia || congruence).
Qed.

Lemma parse_nodes_lines_cons line f nodes :
  match node_record line with
  | Some (tax_id, n) =>
      parse_nodes_lines (line :: f) nodes =
      parse_nodes_lines f (dict_set nodes tax_id n)
  | None => ∃ e, parse_nodes_lines (line :: f) nodes = Raise e
  end.
Proof.
  simpl. unfold node_record, index.
  destruct (fields line) as [|f0 [|f1 [|f2 [|f3 [|f4 rest]]]]]; simpl; eauto;
    destruct (Str.int f0); simpl; eauto;
    destruct (Str.int f1); simpl; eauto;
    destruct (Str.int f4); simpl; eauto.
Qed.

Lemma parse_nodes_lines_ok f nodes :
  Forall (fun line => is_Some (node_record line)) f →
  parse_nodes_lines f nodes = Ok (assign_all node_record f nodes).
Proof.
  revert nodes. induction f as [|line f IH]; intros nodes Hf; [done|].
  apply Forall_cons in Hf as [[[id n] Hline] Hf].
  pose proof (parse_nodes_lines_cons line f nodes) as Hcons.
  rewrite Hline in Hcons. rewrite Hcons, IH by done.
  unfold assign_all. simpl. by rewrite Hline.
Qed.

Lemma parse_nodes_lines_raise f nodes :
  Exists (fun line => node_record line = None) f →
  ∃ e, parse_nodes_lines f nodes = Raise e.
Proof.
  intros Hf. revert nodes. induction Hf as [line f Hline|line f Hf IH];
    intros nodes.
  - pose proof (parse_nodes_lines_cons line f nodes) as Hcons.
    by rewrite Hline in Hcons.
  - pose proof (parse_nodes_lines_cons line f nodes) as Hcons.
    destruct (node_record line) as [[id n]|]; [|done].
    rewrite Hcons. apply IH.
Qed.

Lemma parse_nodes_Ok_inv f nodes :
  parse_nodes_with_division f = Ok nodes →
  Forall (fun line => is_Some (node_record line)) f ∧
  nodes = assign_all node_record f [].
Proof.
  intros Hrun. destruct (records_Some_or_None node_record f) as [Hf|Hf].
  - split; [done|]. unfold parse_nodes_with_division in Hrun.
    rewrite parse_nodes_lines_ok in Hrun by done. congruence.
  - destruct (parse_nodes_lines_raise f [] Hf) as [e He].
    unfold parse_nodes_with_division in Hrun. congruence.
Qed.

(** X1. The node loader raises as soon as some line has fewer than five
    fields or a first, second or fifth field that is not an integer; on
    lines it can all read it returns a mapping with unique keys in which
    the entry of a taxon id is that of the last line with this id. *)
Theorem parse_nodes_malformed_or_last_wins (f : list string) :
  (Exists malformed_node_line f →
   ∃ e, parse_nodes_with_division f = Raise e) ∧
  (Forall (fun line => ¬ malformed_node_line line) f →
   ∃ nodes,
     parse_nodes_with_division f = Ok nodes ∧
     dict_wf nodes ∧
     ∀ tax_id n,
       dict_get nodes tax_id = Some n ↔ last_record node_record f tax_id n).
Proof.
  split.
  - intros Hf. apply parse_nodes_lines_raise.
    eapply Exists_impl; [exact Hf|]. intros line. apply node_record_None.
  - intros Hf. exists (assign_all node_record f []). split_and!.
    + apply parse_nodes_lines_ok.
      eapply Forall_impl; [exact Hf|]. intros line Hline. simpl in Hline.
      rewrite <-node_record_None in Hline. by apply not_eq_None_Some.
    + apply assign_all_wf. apply NoDup_nil_2.
    + intros id n. rewrite assign_all_get. naive_solver.
Qed.

Lemma parse_nodes_malformed_or_last_wins_witness :
  let four := "9" +:+ Str.SEP +:+ "1" +:+ Str.SEP +:+ "genus" +:+ Str.SEP
                +:+ "XX" +:+ nl in
  let first := "9" +:+ Str.SEP +:+ "1" +:+ Str.SEP +:+ "genus" +:+ Str.SEP
                 +:+ "XX" +:+ Str.SEP +:+ "4" +:+ Str.SEP +:+ "0" +:+ nl in
  let second := "9" +:+ Str.SEP +:+ "3193" +:+ Str.SEP +:+ " family "
                  +:+ Str.SEP +:+ "" +:+ Str.SEP +:+ "4" +:+ nl in
  (∃ e, parse_nodes_with_division [first; four] = Raise e) ∧
  (∃ nodes,
     parse_nodes_with_division [first; second] = Ok nodes ∧
     dict_get nodes 9 = Some (3193, "family", 4)).
Proof.
  intros four first second. split.
  - apply (proj1 (parse_nodes_malformed_or_last_wins [first; four])).
    apply Exists_cons_tl, Exists_cons_hd. left.
    unfold too_few_fields. vm_compute. lia.
  - destruct (proj2 (parse_nodes_malformed_or_last_wins [first; second]))
      as (nodes & Hrun & _ & Hlast).
    + repeat constructor; rewrite <-node_record_None; vm_compute; discriminate.
    + exists nodes. split; [done|]. apply Hlast.
      exists [first], second, []. split_and!; [done|reflexivity|constructor].
Defined.

(** ** The order of the keys *)

Lemma dict_set_keys_order {V} (d : dict V) k v :
  (dict_set d k v).*1 = if decide (k ∈ d.*1) then d.*1 else d.*1 ++ [k].
Proof.
  induction d as [|[k' v'] d IH].
  - rewrite decide_False; [done|]. apply not_elem_of_nil.
  - cbn [dict_set]. rewrite fmap_cons. cbn [fst].
    destruct (decide (k = k')) as [->|Hne].
    + rewrite decide_True; [done|]. left.
    + rewrite fmap_cons, IH. cbn [fst]. destruct (decide (k ∈ d.*1)) as [Hd|Hd].
      * rewrite decide_True; [done|]. by right.
      * rewrite decide_False; [done|]. rewrite elem_of_cons. naive_solver.
Qed.

Lemma assign_all_keys_order {V} (record : string → option (Z * V)) f (d : dict V) :
  (assign_all record f d).*1 =
  fold_left (fun seen k => if decide (k ∈ seen) then seen else seen ++ [k])
    (omap (fun line => fst <$> record line) f) d.*1.
Proof.
  unfold assign_all. revert d. induction f as [|line f IH]; intros d; [done|].
  cbn [fold_left omap list_omap]. rewrite IH.
  destruct (record line) as [[k v]|]; simpl; [|done].
  by rewrite dict_set_keys_order.
Qed.

(** X2. The division loader keeps the division ids in the order in which
    they first occur in the file: a repeated id takes the fields of its
    last line but stays at the place of its first. *)
Theorem parse_division_key_order (f : list string) (divisions : dict division) :
  parse_division f = Ok divisions →
  divisions.*1 =
  first_occurrences (omap (fun line => fst <$> division_record line) f).
Proof.
  intros [_ ->]%parse_division_Ok_inv. apply assign_all_keys_order.
Qed.

Lemma parse_division_key_order_witness :
  let l4 := "4" +:+ Str.SEP +:+ "PLN" +:+ Str.SEP +:+ "Plants"
              +:+ Str.SEP +:+ "old" +:+ nl in
  let l0 := "0" +:+ Str.SEP +:+ "BCT" +:+ Str.SEP +:+ "Bacteria"
              +:+ Str.SEP +:+ "-" +:+ nl in
  let l4' := "4" +:+ Str.SEP +:+ "PLN" +:+ Str.SEP +:+ "Plants and Fungi"
               +:+ Str.SEP +:+ "new" +:+ nl in
  [ (4, ("PLN", "Plants and Fungi", "new")); (0, ("BCT", "Bacteria", "-")) ].*1
  = first_occurrences
      (omap (fun line => fst <$> division_record line) [l4; l0; l4']).
Proof.
  intros l4 l0 l4'.
  apply (parse_division_key_order [l4; l0; l4']
           [ (4, ("PLN", "Plants and Fungi", "new")); (0, ("BCT", "Bacteria", "-")) ]).
  reflexivity.
Defined.

(** X3. The name loader keeps the taxon ids in the order in which their
    first retained line (selected id, class [scientific name]) occurs in
    the file; this is the order in which the renderer writes the names. *)
Theorem parse_names_key_order (f : list string) (taxid_filter : gset Z)
    (names : dict string) :
  parse_names f taxid_filter = Ok names →
  names.*1 =
  first_occurrences
    (omap (fun line => fst <$> scientific_name taxid_filter line) f).
Proof.
  intros [_ ->]%parse_names_Ok_inv. apply assign_all_keys_order.
Qed.

Lemma parse_names_key_order_witness :
  let l7 := "7" +:+ Str.SEP +:+ "Rosa" +:+ Str.SEP +:+ Str.SEP
              +:+ "scientific name" +:+ nl in
  let l3 := "3" +:+ Str.SEP +:+ "Rosa canina" +:+ Str.SEP +:+ Str.SEP
              +:+ "scientific name" +:+ nl in
  let l5 := "5" +:+ Str.SEP +:+ "Felis" +:+ Str.SEP +:+ Str.SEP
              +:+ "scientific name" +:+ nl in
  [ (7, "Rosa"); (3, "Rosa canina") ].*1 =
  first_occurrences
    (omap (fun line => fst <$> scientific_name {[3; 7]} line) [l7; l5; l3; l7]).
Proof.
  intros l7 l3 l5.
  apply (parse_names_key_order [l7; l5; l3; l7] {[3; 7]}
           [ (7, "Rosa"); (3, "Rosa canina") ]).
  vm_compute. reflexivity.
Defined.

(** ** The exception of the name loader *)

Lemma parse_names_lines_app before rest taxid_filter names :
  Forall (fun line => is_Some (names_record line)) before →
  parse_names_lines (before ++ rest) taxid_filter names =
  parse_names_lines rest taxid_filter
    (assign_all (scientific_name taxid_filter) before names).
Proof.
  revert names. induction before as [|line before IH]; intros names Hf; [done|].
  apply Forall_cons in Hf as [[r Hline] Hf].
  pose proof (parse_names_lines_cons line (before ++ rest) taxid_filter names)
    as Hcons.
  rewrite Hline in Hcons. rewrite <-app_comm_cons, Hcons, IH by done. done.
Qed.

(** X4. The name loader stops at the first line it cannot read, whether or
    not the line is about a selected taxon: it raises [ValueError] when
    the first field of that line is not an integer, and [IndexError] when
    the first field is an integer but there are fewer than four fields. *)
Theorem parse_names_first_malformed_line (before after : list string)
    (line : string) (taxid_filter : gset Z) :
  Forall (fun l => ¬ (too_few_fields 4 l ∨ first_field_not_int l)) before →
  (first_field_not_int line →
   parse_names (before ++ line :: after) taxid_filter = Raise ValueError) ∧
  (¬ first_field_not_int line → too_few_fields 4 line →
   parse_names (before ++ line :: after) taxid_filter = Raise IndexError).
Proof.
  intros Hbefore.
  assert (Forall (fun l => is_Some (names_record l)) before) as Hok.
  { eapply Forall_impl; [exact Hbefore|]. intros l Hl. simpl in Hl.
    rewrite <-names_record_None in Hl. by apply not_eq_None_Some. }
  unfold parse_names. rewrite parse_names_lines_app by done.
  generalize (assign_all (scientific_name taxid_filter) before []) as names.
  intros names. unfold first_field_not_int, too_few_fields.
  destruct (fields_nonempty line) as (f0 & rest & Hfields).
  simpl. unfold index. rewrite Hfields. simpl. split.
  - intros (f0' & rest' & [= <- <-] & ->). done.
  - intros Hint Hfew. destruct (Str.int f0) as [n|e] eqn:Hf0.
    + simpl. destruct rest as [|f1 [|f2 [|f3 rest]]]; simpl in *; try done. lia.
    + destruct Hint. exists f0, rest. split; [done|].
      by rewrite (int_raises _ _ Hf0) in Hf0.
Qed.

Lemma parse_names_first_malformed_line_witness :
  let good := "7" +:+ Str.SEP +:+ "Rosa" +:+ Str.SEP +:+ Str.SEP
                +:+ "scientific name" +:+ nl in
  let blank := nl in
  let short := "12" +:+ Str.SEP +:+ "Felis" +:+ nl in
  parse_names ([good] ++ blank :: [good]) {[7]} = Raise ValueError ∧
  parse_names ([good] ++ short :: [good]) {[7]} = Raise IndexError.
Proof.
  intros good blank short.
  assert (Forall (fun l => ¬ (too_few_fields 4 l ∨ first_field_not_int l)) [good])
    as Hgood
    by (repeat constructor; rewrite <-names_record_None; vm_compute; discriminate).
  split.
  - apply (proj1 (parse_names_first_malformed_line [good] [good] blank {[7]} Hgood)).
    exists "", []. split; reflexivity.
  - apply (proj2 (parse_names_first_malformed_line [good] [good] short {[7]} Hgood)).
    + intros (f0 & rest & Hf & Hint). vm_compute in Hf.
      injection Hf as <- <-. vm_compute in Hint. discriminate.
    + unfold too_few_fields. vm_compute. lia.
Defined.

(** * More on the subtree selector *)

(** X5. The set the selector returns is exactly the subtree of the root:
    the root, and every key of the mapping from which the root is reached
    by following parent ids.  Keys whose chain of parents does not lead to
    the root are left out. *)
Theorem get_descendants_exactly_subtree (nodes : dict node) (root : Z)
    (taxids : gset Z) :
  dict_wf nodes →
  get_descendants_returns nodes root taxids →
  ∀ tax_id, tax_id ∈ taxids ↔ in_subtree nodes root tax_id.
Proof. apply get_descendants_returns_subtree. Qed.

Lemma get_descendants_exactly_subtree_witness :
  let nodes := [(2, (1, "genus", 4)); (5, (99, "genus", 4)); (3, (2, "species", 4))] in
  5 ∈ ({[1; 2; 3]} : gset Z) ↔ in_subtree nodes 1 5.
Proof.
  apply (get_descendants_exactly_subtree
           [(2, (1, "genus", 4)); (5, (99, "genus", 4)); (3, (2, "species", 4))]
           1 {[1; 2; 3]}).
  - solve_dict_wf.
  - exists 4%nat. vm_compute. reflexivity.
Defined.

(** X6. When no key of the mapping other than the root itself has the root
    as its parent (the mapping is empty, the root is a leaf, or the root
    is not mentioned at all), the selector returns the set with the root
    only. *)
Theorem get_descendants_without_children (nodes : dict node) (root : Z) :
  dict_wf nodes →
  (∀ tax_id, is_child nodes root tax_id → tax_id = root) →
  get_descendants_returns nodes root {[root]}.
Proof.
  intros Hwf Hleaf.
  destruct (get_descendants_total nodes root (length nodes + 2) Hwf)
    as (taxids & Hrun & Hspec); [lia|].
  assert (taxids = {[root]}) as <-; [|by eexists].
  apply set_eq. intros x. rewrite Hspec, elem_of_singleton. split.
  - revert x. apply rtc_ind_r; [done|]. intros y z _ Hyz ->. by apply Hleaf.
  - intros ->. apply rtc_refl.
Qed.

Lemma get_descendants_without_children_witness :
  get_descendants_returns [(2, (7, "genus", 4)); (1, (1, "no rank", 8))] 1 {[1]}.
Proof.
  apply (get_descendants_without_children
           [(2, (7, "genus", 4)); (1, (1, "no rank", 8))] 1).
  - solve_dict_wf.
  - intros tax_id (rank & division_id & Hin).
    apply elem_of_cons in Hin as [[=]|Hin].
    apply elem_of_cons in Hin as [[= -> _ _]|Hin]; [done|]. inv Hin.
Defined.

(** X7. The subtree of a selected taxon is inside the subtree of the root:
    calling the selector again on any id it returned gives a subset. *)
Theorem get_descendants_nested (nodes : dict node) (root tax_id : Z)
    (taxids taxids' : gset Z) :
  dict_wf nodes →
  get_descendants_returns nodes root taxids →
  tax_id ∈ taxids →
  get_descendants_returns nodes tax_id taxids' →
  taxids' ⊆ taxids.
Proof.
  intros Hwf Hroot Hin Hsub x Hx.
  apply (get_descendants_returns_subtree nodes root taxids Hwf Hroot).
  apply (get_descendants_returns_subtree nodes root taxids Hwf Hroot) in Hin.
  apply (get_descendants_returns_subtree nodes tax_id taxids' Hwf Hsub) in Hx.
  unfold in_subtree in *. by etrans.
Qed.

Lemma get_descendants_nested_witness :
  ({[2; 3]} : gset Z) ⊆ {[1; 2; 3; 4]}.
Proof.
  apply (get_descendants_nested
           [(2, (1, "genus", 4)); (3, (2, "species", 4)); (4, (1, "genus", 4))]
           1 2 {[1; 2; 3; 4]} {[2; 3]}).
  - solve_dict_wf.
  - exists 5%nat. vm_compute. reflexivity.
  - set_solver.
  - exists 5%nat. vm_compute. reflexivity.
Defined.

(** X8. The set the selector returns is closed under parents below the
    root: the parent id recorded for a returned taxon other than the root
    is returned too, so every parent reference written for such a taxon
    points to a taxon that is written as well. *)
Theorem get_descendants_parent_selected (nodes : dict node) (root : Z)
    (taxids : gset Z) (tax_id parent_id : Z) (rank : string) (division_id : Z) :
  dict_wf nodes →
  get_descendants_returns nodes root taxids →
  tax_id ∈ taxids →
  tax_id ≠ root →
  dict_get nodes tax_id = Some (parent_id, rank, division_id) →
  parent_id ∈ taxids.
Proof.
  intros Hwf Hret Hin Hne Hget.
  apply (get_descendants_returns_subtree nodes root taxids Hwf Hret) in Hin.
  apply rtc_inv_r in Hin as [->|(p & Hp & Hchild)]; [done|].
  apply (get_descendants_returns_subtree nodes root taxids Hwf Hret).
  assert (is_child nodes parent_id tax_id) as Hchild'
    by (exists rank, division_id; by apply dict_get_Some_elem_of).
  by rewrite (is_child_parent_unique nodes parent_id p tax_id Hwf Hchild' Hchild).
Qed.

Lemma get_descendants_parent_selected_witness :
  2 ∈ ({[1; 2; 3; 4]} : gset Z).
Proof.
  apply (get_descendants_parent_selected
           [(2, (1, "genus", 4)); (3, (2, "species", 4)); (4, (1, "genus", 4))]
           1 {[1; 2; 3; 4]} 3 2 "species" 4).
  - solve_dict_wf.
  - exists 5%nat. vm_compute. reflexivity.
  - set_solver.
  - lia.
  - reflexivity.
Defined.

(** * More on the SQL renderer *)

Lemma taxon_statement_not_other (nodes : dict node) t :
  is_division_insert (taxon_statement nodes t) = false ∧
  is_taxon_name_insert (taxon_statement nodes t) = false.
Proof.
  unfold taxon_statement. destruct (dict_get nodes t) as [[[p r] d]|];
    split; reflexivity.
Qed.

(** The statements of one table among what a run that stopped in the
    taxon loop wrote. *)
Lemma filter_partial_output (p : string → bool) (nodes : dict node)
    (ids : list Z) (divisions : dict division) (bd bt : bool) :
  List.filter p division_schema = [] →
  List.filter p taxon_schema = [] →
  List.filter p taxon_name_schema = [] →
  p nl = false →
  (∀ x, p (division_statement x) = bd) →
  (∀ t, t ∈ ids → p (taxon_statement nodes t) = bt) →
  List.filter p
    ((division_schema ++ (division_statement <$> divisions) ++ [nl]
        ++ taxon_schema ++ taxon_name_schema)
       ++ (taxon_statement nodes <$> ids)) =
  (if bd then division_statement <$> divisions else [])
    ++ (if bt then taxon_statement nodes <$> ids else []).
Proof.
  intros H1 H2 H3 Hnl Hd Ht. rewrite !List.filter_app, H1, H2, H3.
  rewrite (filter_statements p division_statement bd divisions) by auto.
  rewrite (filter_statements p (taxon_statement nodes) bt ids) by auto.
  cbn [List.filter]. rewrite Hnl. simpl. by rewrite !app_nil_r.
Qed.

Lemma export_sql_with_division_divisions (nodes : dict node)
    (names : dict string) (taxids : gset Z) (divisions : dict division) :
  List.filter is_division_insert
    (export_sql_with_division nodes names taxids divisions).1 =
  division_statement <$> divisions.
Proof.
  rewrite export_sql_with_division_run. cbv zeta.
  destruct (list_find _ (sorted taxids)) as [[i t]|]; cbn [fst].
  - rewrite (filter_partial_output is_division_insert nodes
               (take i (sorted taxids)) divisions true false);
      [by rewrite app_nil_r|try reflexivity..].
    + intros x. exact (proj1 (division_statement_kind x)).
    + intros t' _. exact (proj1 (taxon_statement_not_other nodes t')).
  - rewrite <-!app_assoc.
    rewrite (filter_output is_division_insert nodes names (sorted taxids)
               divisions true false false);
      [by rewrite app_nil_r|try reflexivity..].
    + intros x. exact (proj1 (division_statement_kind x)).
    + intros t' _. exact (proj1 (taxon_statement_not_other nodes t')).
Qed.

(** X9. Whatever the other arguments, and whether or not the run later
    raises, the division INSERT statements among the strings written are
    those of the entries of the division mapping, one each, in its
    iteration order. *)
Theorem export_sql_division_statements (nodes : dict node) (names : dict string)
    (taxids : gset Z) (divisions : dict division) :
  List.filter is_division_insert
    (export_sql_with_division nodes names taxids divisions).1 =
  division_statement <$> divisions.
Proof. apply export_sql_with_division_divisions. Qed.

Lemma StronglySorted_filter_lt_hd (l : list Z) t :
  Forall (Z.lt t) l → filter (fun x => x < t) l = [].
Proof.
  induction 1 as [|y l Hy Hl IH]; [done|].
  rewrite filter_cons_False by lia. done.
Qed.

Lemma StronglySorted_take_lt (l : list Z) i t :
  StronglySorted Z.lt l → l !! i = Some t →
  take i l = filter (fun x => x < t) l.
Proof.
  intros Hl. revert i. induction Hl as [|x l Hl IH Hx]; intros i Hi; [done|].
  destruct i as [|i]; simpl in Hi.
  - injection Hi as ->. rewrite filter_cons_False by lia.
    by rewrite StronglySorted_filter_lt_hd.
  - pose proof (proj1 (Forall_forall _ _) Hx t (list_elem_of_lookup_2 _ _ _ Hi)).
    rewrite filter_cons_True by done. simpl. f_equal. by apply IH.
Qed.

Lemma export_sql_with_division_raise (nodes : dict node) (names : dict string)
    (taxids : gset Z) (divisions : dict division) (t : Z) :
  t ∈ taxids →
  dict_get nodes t = None →
  ∃ out t0,
    export_sql_with_division nodes names taxids divisions
      = (out, Raise (KeyError t0)) ∧
    t0 ∈ taxids ∧ dict_get nodes t0 = None ∧
    (∀ t', t' ∈ taxids → dict_get nodes t' = None → t0 ≤ t') ∧
    List.filter is_taxon_insert out =
      taxon_statement nodes <$> filter (fun x => x < t0) (sorted taxids) ∧
    List.filter is_taxon_name_insert out = [].
Proof.
  intros Ht Hnone. rewrite export_sql_with_division_run. cbv zeta.
  destruct (list_find _ (sorted taxids)) as [[i t0]|] eqn:Hfind.
  - apply list_find_Some in Hfind as (Hi & Ht0 & Hbefore).
    pose proof (StronglySorted_take_lt _ _ _ (sorted_ascending taxids) Hi) as Htake.
    assert (∀ x, x ∈ take i (sorted taxids) → is_Some (dict_get nodes x)) as Hkeys.
    { intros x [j Hx]%list_elem_of_lookup_1.
      apply lookup_take_Some in Hx as [Hx Hj].
      apply not_eq_None_Some. by apply (Hbefore j x). }
    eexists _, t0. split_and!; [done| |done| | |].
    + apply elem_of_sorted. by apply list_elem_of_lookup_2 in Hi.
    + intros t' Ht' Hnone'. destruct (decide (t' < t0)) as [Hlt|]; [|lia].
      assert (t' ∈ take i (sorted taxids)) as [n Hn]%Hkeys; [|congruence].
      rewrite Htake. apply list_elem_of_filter. split; [done|].
      by apply elem_of_sorted.
    + rewrite (filter_partial_output is_taxon_insert nodes
                 (take i (sorted taxids)) divisions false true);
        [by rewrite Htake|try reflexivity..].
      * intros x. exact (proj1 (proj2 (division_statement_kind x))).
      * intros x Hx. exact (proj1 (taxon_statement_kind nodes x (Hkeys x Hx))).
    + rewrite (filter_partial_output is_taxon_name_insert nodes
                 (take i (sorted taxids)) divisions false false);
        [done|try reflexivity..].
      * intros x. exact (proj2 (proj2 (division_statement_kind x))).
      * intros x _. exact (proj2 (taxon_statement_not_other nodes x)).
  - apply list_find_None in Hfind.
    apply elem_of_sorted in Ht.
    destruct (proj1 (Forall_forall _ _) Hfind t Ht Hnone).
Qed.

(** X10. When some selected id is not a key of the node mapping, the
    renderer raises the [KeyError] of the least such id.  By then it has
    written the taxon statements of the selected ids below it, in
    ascending order, and no taxon_name statement. *)
Theorem export_sql_missing_key (nodes : dict node) (names : dict string)
    (taxids : gset Z) (divisions : dict division) (t : Z) :
  t ∈ taxids →
  dict_get nodes t = None →
  ∃ out t0,
    export_sql_with_division nodes names taxids divisions
      = (out, Raise (KeyError t0)) ∧
    t0 ∈ taxids ∧ dict_get nodes t0 = None ∧
    (∀ t', t' ∈ taxids → dict_get nodes t' = None → t0 ≤ t') ∧
    List.filter is_taxon_insert out =
      taxon_statement nodes <$> filter (fun x => x < t0) (sorted taxids) ∧
    List.filter is_taxon_name_insert out = [].
Proof. apply export_sql_with_division_raise. Qed.

Lemma export_sql_missing_key_witness :
  let nodes := [(2, (1, "genus", 4)); (3, (2, "species", 4))] in
  ∃ out t0,
    export_sql_with_division nodes [(2, "Rosa")] {[1; 2; 3; 5]} []
      = (out, Raise (KeyError t0)) ∧
    t0 ∈ ({[1; 2; 3; 5]} : gset Z) ∧ dict_get nodes t0 = None ∧
    (∀ t', t' ∈ ({[1; 2; 3; 5]} : gset Z) → dict_get nodes t' = None → t0 ≤ t') ∧
    List.filter is_taxon_insert out =
      taxon_statement nodes <$> filter (fun x => x < t0) (sorted {[1; 2; 3; 5]}) ∧
    List.filter is_taxon_name_insert out = [].
Proof.
  apply (export_sql_missing_key
           [(2, (1, "genus", 4)); (3, (2, "species", 4))] [(2, "Rosa")]
           {[1; 2; 3; 5]} [] 5).
  - set_solver.
  - reflexivity.
Defined.

(** X11. When every selected id is a key of the node mapping, the strings
    written are, in this order: the division schema, one statement per
    division, a blank line, the taxon schema, the taxon_name schema, one
    statement per selected taxon, a blank line, one statement per name. *)
Theorem export_sql_complete_output (nodes : dict node) (names : dict string)
    (taxids : gset Z) (divisions : dict division) :
  (∀ t, t ∈ taxids → is_Some (dict_get nodes t)) →
  export_sql_with_division nodes names taxids divisions =
    (division_schema ++ (division_statement <$> divisions) ++ [nl]
       ++ taxon_schema ++ taxon_name_schema
       ++ (taxon_statement nodes <$> sorted taxids) ++ [nl]
       ++ (taxon_name_statement <$> names), Ok ()).
Proof. apply export_sql_with_division_ok. Qed.

Lemma export_sql_complete_output_witness :
  let nodes := [(2, (1, "genus", 4)); (1, (1, "no rank", 8))] in
  export_sql_with_division nodes [(2, "Rosa")] {[1; 2]} [(4, ("PLN", "Plants", "-"))] =
    (division_schema ++ (division_statement <$> [(4, ("PLN", "Plants", "-"))])
       ++ [nl] ++ taxon_schema ++ taxon_name_schema
       ++ (taxon_statement nodes <$> sorted {[1; 2]}) ++ [nl]
       ++ (taxon_name_statement <$> [(2, "Rosa")]), Ok ()).
Proof.
  apply (export_sql_complete_output
           [(2, (1, "genus", 4)); (1, (1, "no rank", 8))] [(2, "Rosa")]
           {[1; 2]} [(4, ("PLN", "Plants", "-"))]).
  intros t Ht. assert (t = 1 ∨ t = 2) as [-> | ->] by set_solver;
    vm_compute; eauto.
Defined.

(** ** Escaping *)

Lemma replace_quote_cons c s :
  Str.replace Str.QUOTE "''" (String c s) =
  if Ascii.eqb c Str.QUOTE
  then String Str.QUOTE (String Str.QUOTE (Str.replace Str.QUOTE "''" s))
  else String c (Str.replace Str.QUOTE "''" s).
Proof. simpl. by destruct (Ascii.eqb c Str.QUOTE). Qed.

(** X12. The text the renderer puts between quotes for a rank or a name
    has every single quote doubled, and two different ranks or names never
    give the same text. *)
Theorem replace_quote_paired_and_injective (s : string) :
  quotes_paired (Str.replace Str.QUOTE "''" s) = true ∧
  ∀ s', Str.replace Str.QUOTE "''" s = Str.replace Str.QUOTE "''" s' → s = s'.
Proof.
  split.
  - induction s as [|c s IH]; [done|]. rewrite replace_quote_cons.
    destruct (Ascii.eqb c Str.QUOTE) eqn:Hc.
    + cbn [quotes_paired]. by rewrite Ascii.eqb_refl.
    + cbn [quotes_paired]. by rewrite Hc.
  - induction s as [|c s IH]; intros [|c' s'].
    + done.
    + rewrite replace_quote_cons. simpl. by destruct (Ascii.eqb c' Str.QUOTE).
    + rewrite replace_quote_cons. simpl. by destruct (Ascii.eqb c Str.QUOTE).
    + rewrite !replace_quote_cons.
      destruct (Ascii.eqb c Str.QUOTE) eqn:Hc;
        destruct (Ascii.eqb c' Str.QUOTE) eqn:Hc'.
      * apply Ascii.eqb_eq in Hc, Hc'. subst. intros [= H]. f_equal. by apply IH.
      * intros [= <- H]. by rewrite Ascii.eqb_refl in Hc'.
      * intros [= -> H]. by rewrite Ascii.eqb_refl in Hc.
      * intros [= -> H]. f_equal. by apply IH.
Qed.

(** * The whole program *)

Lemma assign_all_length {V} (record : string → option (Z * V)) f (d : dict V) :
  (length (assign_all record f d) ≤ length f + length d)%nat.
Proof.
  unfold assign_all. revert d. induction f as [|line f IH]; intros d; simpl; [lia|].
  etrans; [apply IH|]. destruct (record line) as [[k v]|]; [|lia].
  assert (length (dict_set d k v) ≤ S (length d))%nat; [|lia].
  clear. induction d as [|[k' v'] d IH]; simpl; [lia|].
  case_decide; simpl; lia.
Qed.

Lemma parse_nodes_length f nodes :
  parse_nodes_with_division f = Ok nodes → (length nodes ≤ length f)%nat.
Proof.
  intros [_ ->]%parse_nodes_Ok_inv.
  pose proof (assign_all_length node_record f []). simpl in *. lia.
Qed.

Lemma parse_names_keys_selected f taxid_filter names tax_id :
  parse_names f taxid_filter = Ok names →
  tax_id ∈ names.*1 → tax_id ∈ taxid_filter.
Proof.
  intros [_ ->]%parse_names_Ok_inv [name Hget]%dict_get_is_Some.
  apply assign_all_get in Hget as [(before & line & after & _ & Hline & _)|[_ ?]];
    [|done].
  by apply scientific_name_Some in Hline as (? & ? & _ & ? & _).
Qed.

Lemma parse_names_well_formed f taxid_filter :
  Forall (fun line => ¬ (too_few_fields 4 line ∨ first_field_not_int line)) f →
  ∃ names, parse_names f taxid_filter = Ok names.
Proof.
  intros Hf. eexists. apply parse_names_lines_ok.
  eapply Forall_impl; [exact Hf|]. intros line Hline. simpl in Hline.
  rewrite <-names_record_None in Hline. by apply not_eq_None_Some.
Qed.

Lemma selected_keys (nodes : dict node) root taxids t :
  dict_wf nodes → get_descendants_returns nodes root taxids →
  t ∈ taxids → t ≠ root → is_Some (dict_get nodes t).
Proof.
  intros Hwf Hret Ht Hne. apply dict_get_is_Some.
  apply (get_descendants_returns_subtree nodes root taxids Hwf Hret) in Ht.
  by destruct (in_subtree_key nodes root t Ht).
Qed.

(** X13. When the division and node files load, the node mapping has the
    plant root 3193 as a key and every line of the names file has four
    fields and an integer first field, the program runs to the end: it
    writes what the renderer writes for the subtree of 3193 and the names
    loaded for it, and every name written belongs to a selected taxon. *)
Theorem main_complete_run (division_file nodes_file names_file : list string)
    (divisions : dict division) (nodes : dict node) :
  parse_division division_file = Ok divisions →
  parse_nodes_with_division nodes_file = Ok nodes →
  is_Some (dict_get nodes PLANTAE) →
  Forall (fun line => ¬ (too_few_fields 4 line ∨ first_field_not_int line))
    names_file →
  ∃ taxids names out,
    get_descendants_returns nodes PLANTAE taxids ∧
    parse_names names_file taxids = Ok names ∧
    export_sql_with_division nodes names taxids divisions = (out, Ok ()) ∧
    (∀ fuel, (length nodes_file + 1 < fuel)%nat →
       main fuel division_file nodes_file names_file = Some (out, Ok ())) ∧
    (∀ tax_id, tax_id ∈ names.*1 → tax_id ∈ taxids).
Proof.
  intros Hdiv Hnodes Hroot Hnames.
  pose proof (parse_nodes_with_division_wf _ _ Hnodes) as Hwf.
  pose proof (parse_nodes_length _ _ Hnodes) as Hlen.
  destruct (get_descendants_total nodes PLANTAE (length nodes + 2) Hwf)
    as (taxids & Hrun & _); [lia|].
  assert (get_descendants_returns nodes PLANTAE taxids) as Hret by by eexists.
  destruct (parse_names_well_formed names_file taxids Hnames) as [names Hn].
  exists taxids, names. eexists. split_and!; [done|done| | |].
  - apply export_sql_with_division_ok. intros t Ht.
    destruct (decide (t = PLANTAE)) as [->|Hne]; [done|].
    by apply (selected_keys nodes PLANTAE taxids).
  - intros fuel Hfuel. unfold main. rewrite Hdiv, Hnodes.
    destruct (get_descendants_total nodes PLANTAE fuel Hwf) as (taxids' & Hrun' & _);
      [lia|].
    rewrite (get_descendants_returns_unique nodes PLANTAE taxids' taxids) in Hrun'
      by (done || by eexists).
    rewrite Hrun'. simpl. rewrite Hn. f_equal.
    apply export_sql_with_division_ok. intros t Ht.
    destruct (decide (t = PLANTAE)) as [->|Hne]; [done|].
    by apply (selected_keys nodes PLANTAE taxids).
  - intros tax_id. by apply (parse_names_keys_selected names_file).
Qed.

Lemma main_complete_run_witness :
  let division_file := [ "4" +:+ Str.SEP +:+ "PLN" +:+ Str.SEP +:+ "Plants"
                           +:+ Str.SEP +:+ "-" +:+ nl ] in
  let nodes_file := [ "3193" +:+ Str.SEP +:+ "131567" +:+ Str.SEP +:+ "clade"
                        +:+ Str.SEP +:+ "XX" +:+ Str.SEP +:+ "4" +:+ nl;
                      "3398" +:+ Str.SEP +:+ "3193" +:+ Str.SEP +:+ "phylum"
                        +:+ Str.SEP +:+ "XX" +:+ Str.SEP +:+ "4" +:+ nl ] in
  let names_file := [ "3193" +:+ Str.SEP +:+ "Embryophyta" +:+ Str.SEP
                        +:+ Str.SEP +:+ "scientific name" +:+ nl ] in
  let divisions := [(4, ("PLN", "Plants", "-"))] in
  let nodes := [(3193, (131567, "clade", 4)); (3398, (3193, "phylum", 4))] in
  ∃ taxids names out,
    get_descendants_returns nodes PLANTAE taxids ∧
    parse_names names_file taxids = Ok names ∧
    export_sql_with_division nodes names taxids divisions = (out, Ok ()) ∧
    (∀ fuel, (length nodes_file + 1 < fuel)%nat →
       main fuel division_file nodes_file names_file = Some (out, Ok ())) ∧
    (∀ tax_id, tax_id ∈ names.*1 → tax_id ∈ taxids).
Proof.
  intros division_file nodes_file names_file divisions nodes.
  apply (main_complete_run division_file nodes_file names_file divisions nodes).
  - reflexivity.
  - reflexivity.
  - vm_compute. eauto.
  - repeat constructor; rewrite <-names_record_None; vm_compute; discriminate.
Defined.

(** X14. When the division and node files load and every line of the names
    file has four fields and an integer first field, but the node mapping
    has no entry for the plant root 3193, the program ends with
    [KeyError(3193)]: the selector still returns a set with 3193, the name
    loader returns, and the renderer fails on 3193 after the division
    statements, before any taxon_name statement. *)
Theorem main_root_missing (division_file nodes_file names_file : list string)
    (divisions : dict division) (nodes : dict node) :
  parse_division division_file = Ok divisions →
  parse_nodes_with_division nodes_file = Ok nodes →
  dict_get nodes PLANTAE = None →
  Forall (fun line => ¬ (too_few_fields 4 line ∨ first_field_not_int line))
    names_file →
  ∃ out,
    (∀ fuel, (length nodes_file + 1 < fuel)%nat →
       main fuel division_file nodes_file names_file
         = Some (out, Raise (KeyError PLANTAE))) ∧
    List.filter is_division_insert out = division_statement <$> divisions ∧
    List.filter is_taxon_name_insert out = [].
Proof.
  intros Hdiv Hnodes Hroot Hnames.
  pose proof (parse_nodes_with_division_wf _ _ Hnodes) as Hwf.
  pose proof (parse_nodes_length _ _ Hnodes) as Hlen.
  destruct (get_descendants_total nodes PLANTAE (length nodes + 2) Hwf)
    as (taxids & Hrun & Hspec); [lia|].
  assert (get_descendants_returns nodes PLANTAE taxids) as Hret by by eexists.
  assert (PLANTAE ∈ taxids) as Hin by (apply Hspec, rtc_refl).
  destruct (parse_names_well_formed names_file taxids Hnames) as [names Hn].
  destruct (export_sql_with_division_raise nodes names taxids divisions PLANTAE
              Hin Hroot) as (out & t0 & Hout & Ht0 & Hnone & _ & _ & Hno_names).
  assert (t0 = PLANTAE) as ->.
  { destruct (decide (t0 = PLANTAE)) as [|Hne]; [done|].
    destruct (selected_keys nodes PLANTAE taxids t0 Hwf Hret Ht0 Hne). congruence. }
  exists out. split_and!; [|by rewrite <-(export_sql_with_division_divisions
                              nodes names taxids divisions), Hout|done].
  intros fuel Hfuel. unfold main. rewrite Hdiv, Hnodes.
  destruct (get_descendants_total nodes PLANTAE fuel Hwf) as (taxids' & Hrun' & _);
    [lia|].
  rewrite (get_descendants_returns_unique nodes PLANTAE taxids' taxids) in Hrun'
    by (done || by eexists).
  rewrite Hrun'. simpl. by rewrite Hn, Hout.
Qed.

Lemma main_root_missing_witness :
  let division_file := [ "4" +:+ Str.SEP +:+ "PLN" +:+ Str.SEP +:+ "Plants"
                           +:+ Str.SEP +:+ "-" +:+ nl ] in
  let nodes_file := [ "3398" +:+ Str.SEP +:+ "3193" +:+ Str.SEP +:+ "phylum"
                        +:+ Str.SEP +:+ "XX" +:+ Str.SEP +:+ "4" +:+ nl ] in
  let names_file := [ "3398" +:+ Str.SEP +:+ "Bryophyta" +:+ Str.SEP
                        +:+ Str.SEP +:+ "scientific name" +:+ nl ] in
  ∃ out,
    (∀ fuel, (length nodes_file + 1 < fuel)%nat →
       main fuel division_file nodes_file names_file
         = Some (out, Raise (KeyError PLANTAE))) ∧
    List.filter is_division_insert out =
      division_statement <$> [(4, ("PLN", "Plants", "-"))] ∧
    List.filter is_taxon_name_insert out = [].
Proof.
  intros division_file nodes_file names_file.
  apply (main_root_missing division_file nodes_file names_file
           [(4, ("PLN", "Plants", "-"))] [(3398, (3193, "phylum", 4))]).
  - reflexivity.
  - reflexivity.
  - reflexivity.
  - repeat constructor; rewrite <-names_record_None; vm_compute; discriminate.
Defined.

(** X15. A line that a loader cannot read, in any of the three files, ends
    the program with an exception before the output file is opened:
    nothing is written. *)
Theorem main_malformed_input (division_file nodes_file names_file : list string) :
  Exists (fun line => too_few_fields 4 line ∨ first_field_not_int line)
    division_file ∨
  Exists malformed_node_line nodes_file ∨
  Exists (fun line => too_few_fields 4 line ∨ first_field_not_int line)
    names_file →
  ∀ fuel, (length nodes_file + 1 < fuel)%nat →
    ∃ e, main fuel division_file nodes_file names_file = Some ([], Raise e).
Proof.
  intros Hbad fuel Hfuel. unfold main.
  destruct (parse_division division_file) as [divisions|e] eqn:Hdiv; [|eauto].
  destruct (parse_nodes_with_division nodes_file) as [nodes|e] eqn:Hnodes; [|eauto].
  pose proof (parse_nodes_with_division_wf _ _ Hnodes) as Hwf.
  pose proof (parse_nodes_length _ _ Hnodes) as Hlen.
  destruct (get_descendants_total nodes PLANTAE fuel Hwf) as (taxids & -> & _);
    [lia|]. simpl.
  destruct Hbad as [Hbad|[Hbad|Hbad]].
  - apply parse_division_Ok_inv in Hdiv as [Hok _].
    apply Exists_exists in Hbad as (line & Hin & Hline%division_record_None).
    destruct (proj1 (Forall_forall _ _) Hok line Hin) as [r Hr]. congruence.
  - apply parse_nodes_Ok_inv in Hnodes as [Hok _].
    apply Exists_exists in Hbad as (line & Hin & Hline%node_record_None).
    destruct (proj1 (Forall_forall _ _) Hok line Hin) as [r Hr]. congruence.
  - destruct (parse_names_lines_raise names_file taxids []) as [e He].
    + eapply Exists_impl; [exact Hbad|]. intros line. apply names_record_None.
    + unfold parse_names. rewrite He. eauto.
Qed.

Lemma main_malformed_input_witness :
  let division_file := [ "4" +:+ Str.SEP +:+ "PLN" +:+ Str.SEP +:+ "Plants"
                           +:+ Str.SEP +:+ "-" +:+ nl ] in
  let nodes_file := [ "3193" +:+ Str.SEP +:+ "131567" +:+ Str.SEP +:+ "clade"
                        +:+ Str.SEP +:+ "XX" +:+ Str.SEP +:+ "4" +:+ nl ] in
  let names_file := [ "3193" +:+ Str.SEP +:+ "Embryophyta" +:+ nl ] in
  ∃ e, main 3 division_file nodes_file names_file = Some ([], Raise e).
Proof.
  intros division_file nodes_file names_file.
  apply (main_malformed_input division_file nodes_file names_file).
  - right. right. apply Exists_cons_hd. left.
    unfold too_few_fields. vm_compute. lia.
  - simpl. lia.
Defined.

(** X16. The selection does not depend on the order of the entries of the
    node mapping: the selector returns the same set on a mapping with the
    same entries in another order. *)
Theorem get_descendants_order_independent (nodes nodes' : dict node) (root : Z)
    (taxids : gset Z) :
  dict_wf nodes →
  nodes ≡ₚ nodes' →
  get_descendants_returns nodes root taxids →
  get_descendants_returns nodes' root taxids.
Proof.
  intros Hwf Hperm Hret.
  assert (dict_wf nodes') as Hwf' by (unfold dict_wf; by rewrite <-Hperm).
  destruct (get_descendants_total nodes' root (length nodes' + 2) Hwf')
    as (taxids' & Hrun & Hspec'); [lia|].
  assert (taxids' = taxids) as <-; [|by eexists].
  apply set_eq. intros x. rewrite Hspec'.
  rewrite (get_descendants_returns_subtree nodes root taxids Hwf Hret).
  assert (∀ p y, is_child nodes' p y ↔ is_child nodes p y) as Hchild.
  { intros p y. unfold is_child. by setoid_rewrite Hperm. }
  unfold in_subtree. split; apply rtc_subrel; intros p y; apply Hchild.
Qed.

Lemma get_descendants_order_independent_witness :
  get_descendants_returns
    [(3, (2, "species", 4)); (2, (1, "genus", 4))] 1 {[1; 2; 3]}.
Proof.
  apply (get_descendants_order_independent
           [(2, (1, "genus", 4)); (3, (2, "species", 4))]
           [(3, (2, "species", 4)); (2, (1, "genus", 4))] 1 {[1; 2; 3]}).
  - solve_dict_wf.
  - apply perm_swap.
  - exists 4%nat. vm_compute. reflexivity.
Defined.
